(** * The to-do list component (src/components/TodoList.tsx)

    A shallow embedding of the two versions of the [TodoList] component: the
    task store and its handlers ([addTask], [toggleComplete], [deleteTask]),
    the derived view ([getSortedTasks], [isOverdue]) and the mirror of the
    store in [localStorage] (the two [useEffect] hooks).

    Conventions.
    - A JavaScript string is the list of its UTF-16 code units ([JSString]).
    - A [Date] is its time value, the milliseconds since the epoch, as a [Z];
      the model covers valid dates (a time value in the range of [validTime]),
      which are the only ones the calendar picker produces.
    - Component state is passed explicitly: a handler maps the state of the
      render it closes over to the next state; the clock reading of
      [Date.now()] / [new Date()] is an argument, and so is the time zone
      of the host, which the local day of a date depends on. *)

From Stdlib Require Import Ascii String.
From Stdlib Require Import ZArith NArith List Bool Lia Permutation Sorted DecimalZ.
Import ListNotations.
Local Open Scope Z_scope.

(* ================================================================== *)
(** ** JavaScript strings *)

Definition JSString := list N.

(** A literal, unit by unit. *)
Definition u (s : string) : JSString := map N_of_ascii (list_ascii_of_string s).

Fixpoint unitsEqb (a b : JSString) : bool :=
  match a, b with
  | [], [] => true
  | x :: a', y :: b' => N.eqb x y && unitsEqb a' b'
  | _, _ => false
  end.

(** [WhiteSpace] and [LineTerminator] of ECMAScript, the code points
    [String.prototype.trim] strips: TAB, LF, VT, FF, CR, SP, NBSP, the
    category Zs, LS, PS and ZWNBSP.  All lie in the basic plane. *)
Definition isWhiteSpace (c : N) : bool :=
  ((9 <=? c) && (c <=? 13) || (c =? 32) || (c =? 160) || (c =? 5760)
   || (8192 <=? c) && (c <=? 8202) || (c =? 8232) || (c =? 8233)
   || (c =? 8239) || (c =? 8287) || (c =? 12288) || (c =? 65279))%N.

Fixpoint trimStart (s : JSString) : JSString :=
  match s with
  | c :: r => if isWhiteSpace c then trimStart r else s
  | [] => []
  end.

Definition trimEnd (s : JSString) : JSString := rev (trimStart (rev s)).

Definition trim (s : JSString) : JSString := trimEnd (trimStart s).

(** [!s] for a string [s]: only the empty string is falsy. *)
Definition isEmptyString (s : JSString) : bool :=
  match s with [] => true | _ => false end.

(** [Number.prototype.toString] on an integer (the value of [Date.now()]):
    its decimal digits, a minus sign before a negative one. *)
Fixpoint uintUnits (d : Decimal.uint) : JSString :=
  match d with
  | Decimal.Nil => []
  | Decimal.D0 r => 48%N :: uintUnits r
  | Decimal.D1 r => 49%N :: uintUnits r
  | Decimal.D2 r => 50%N :: uintUnits r
  | Decimal.D3 r => 51%N :: uintUnits r
  | Decimal.D4 r => 52%N :: uintUnits r
  | Decimal.D5 r => 53%N :: uintUnits r
  | Decimal.D6 r => 54%N :: uintUnits r
  | Decimal.D7 r => 55%N :: uintUnits r
  | Decimal.D8 r => 56%N :: uintUnits r
  | Decimal.D9 r => 57%N :: uintUnits r
  end.

Definition numberToString (n : Z) : JSString :=
  match Z.to_int n with
  | Decimal.Pos d => uintUnits d
  | Decimal.Neg d => 45%N :: uintUnits d
  end.

(* ================================================================== *)
(** ** [Array.prototype.sort]

    The builtin is stable and calls the comparator on pairs of elements; a
    negative result puts the first argument first.  For a consistent
    comparator the result does not depend on the engine (see
    [stable_sort_unique] below); it is computed here by insertion from the
    right, which places an element before the first one it does not follow. *)

Section ArraySort.
Context {A : Type} (comparefn : A -> A -> Z).

Fixpoint sortInsert (x : A) (l : list A) : list A :=
  match l with
  | [] => [x]
  | y :: r => if comparefn x y <=? 0 then x :: y :: r else y :: sortInsert x r
  end.

Fixpoint arraySort (l : list A) : list A :=
  match l with
  | [] => []
  | x :: r => sortInsert x (arraySort r)
  end.
End ArraySort.

(** What being the stable sort of [l] by a three-way comparison means: the
    same elements, in non-descending order, elements that compare equal in
    their order of [l]. *)
Definition tiedWith {A} (cmp : A -> A -> comparison) (x y : A) : bool :=
  match cmp x y with Eq => true | _ => false end.

Definition notAfter {A} (cmp : A -> A -> comparison) (x y : A) : Prop :=
  cmp x y <> Gt.

Record StableSortOf {A} (cmp : A -> A -> comparison) (l l' : list A) : Prop :=
  { sso_perm : Permutation l l';
    sso_sorted : StronglySorted (notAfter cmp) l';
    sso_stable : forall x, filter (tiedWith cmp x) l' = filter (tiedWith cmp x) l }.

(* ================================================================== *)
(** ** Dates and their ISO-8601 text

    [Date.prototype.toISOString] writes a valid time value as
    [YYYY-MM-DDTHH:mm:ss.sssZ] in UTC, the year on four digits from 0 to 9999
    and otherwise signed on six.  [JSON.stringify] serialises a [Date] by that
    text ([toJSON]); [new Date(text)] reads it back. *)

Definition msPerDay : Z := 86400000.

Definition validTime (t : Z) : Prop :=
  -8640000000000000 <= t <= 8640000000000000.

Definition validTimeb (t : Z) : bool :=
  (-8640000000000000 <=? t) && (t <=? 8640000000000000).

(** [Day(t)] and [TimeWithinDay(t)]. *)
Definition Day (t : Z) : Z := t / msPerDay.
Definition TimeWithinDay (t : Z) : Z := t mod msPerDay.

(** The proleptic Gregorian date of a day number (day 0 is 1970-01-01), by
    400-year eras of 146097 days that start on the first of March. *)
Definition civilFromDays (z : Z) : Z * Z * Z :=
  let z' := z + 719468 in
  let era := z' / 146097 in
  let doe := z' mod 146097 in
  let yoe := (doe - doe / 1460 + doe / 36524 - doe / 146096) / 365 in
  let doy := doe - (365 * yoe + yoe / 4 - yoe / 100) in
  let mp := (5 * doy + 2) / 153 in
  let d := doy - (153 * mp + 2) / 5 + 1 in
  let m := if mp <? 10 then mp + 3 else mp - 9 in
  (yoe + era * 400 + (if m <=? 2 then 1 else 0), m, d).

(** [MakeDay] on a year, a month counted from 1 and a day of the month. *)
Definition daysFromCivil (y m d : Z) : Z :=
  let y' := if m <=? 2 then y - 1 else y in
  let era := y' / 400 in
  let yoe := y' mod 400 in
  let mp := if 2 <? m then m - 3 else m + 9 in
  let doy := (153 * mp + 2) / 5 + d - 1 in
  let doe := yoe * 365 + yoe / 4 - yoe / 100 + doy in
  era * 146097 + doe - 719468.

(** [MakeTime] and [MakeDate]. *)
Definition MakeTime (h mi s ms : Z) : Z := ((h * 60 + mi) * 60 + s) * 1000 + ms.
Definition MakeDate (day time : Z) : Z := day * msPerDay + time.

(** [TimeClip]: a time value out of range makes an Invalid Date ([None]). *)
Definition TimeClip (t : Z) : option Z :=
  if validTimeb t then Some t else None.

(** The host's time zone, as the [Date] methods on local time read it: the
    offset of local time from UTC in effect at an instant, and the offset by
    which a local time is read back as an instant (where the clocks were set
    back or forward, a local time that occurs twice or never is read by the
    offset before the change).  Both in milliseconds. *)
Record TimeZone := mkTimeZone {
  offsetAt : Z -> Z;
  offsetOfLocal : Z -> Z
}.

(** [LocalTime(t)] and [UTC(t)]. *)
Definition LocalTime (tz : TimeZone) (t : Z) : Z := t + offsetAt tz t.
Definition UTC (tz : TimeZone) (t : Z) : Z := t - offsetOfLocal tz t.

(** [Date.prototype.setHours(h, m, s, ms)] on a valid date. *)
Definition setHours (tz : TimeZone) (t h mi s ms : Z) : option Z :=
  let t' := LocalTime tz t in
  let date := MakeDate (Day t') (MakeTime h mi s ms) in
  TimeClip (UTC tz date).

Definition digitUnit (d : Z) : N := Z.to_N (48 + d).

Definition isDigit (c : N) : bool := ((48 <=? c) && (c <=? 57))%N.

(** [w] decimal digits of [v], the most significant first. *)
Fixpoint padDigits (w : nat) (v : Z) : JSString :=
  match w with
  | O => []
  | S w' => padDigits w' (v / 10) ++ [digitUnit (v mod 10)]
  end.

Definition yearUnits (y : Z) : JSString :=
  if (0 <=? y) && (y <=? 9999) then padDigits 4 y
  else (if y <? 0 then 45%N else 43%N) :: padDigits 6 (Z.abs y).

Definition toISOString (t : Z) : JSString :=
  let '(y, m, d) := civilFromDays (Day t) in
  let w := TimeWithinDay t in
  yearUnits y ++ [45%N] ++ padDigits 2 m ++ [45%N] ++ padDigits 2 d
    ++ [84%N] ++ padDigits 2 (w / 3600000)
    ++ [58%N] ++ padDigits 2 (w / 60000 mod 60)
    ++ [58%N] ++ padDigits 2 (w / 1000 mod 60)
    ++ [46%N] ++ padDigits 3 (w mod 1000) ++ [90%N].

(** Exactly [w] digits, read onto [acc]. *)
Fixpoint readDigits (w : nat) (acc : Z) (s : JSString) : option (Z * JSString) :=
  match w with
  | O => Some (acc, s)
  | S w' =>
      match s with
      | c :: r =>
          if isDigit c then readDigits w' (acc * 10 + (Z.of_N c - 48)) r else None
      | [] => None
      end
  end.

Definition expectUnit (c : N) (s : JSString) : option JSString :=
  match s with
  | x :: r => if (x =? c)%N then Some r else None
  | [] => None
  end.

Definition readYear (s : JSString) : option (Z * JSString) :=
  match s with
  | c :: r =>
      if (c =? 43)%N then readDigits 6 0 r
      else if (c =? 45)%N then
        match readDigits 6 0 r with
        | Some (y, r') => Some (- y, r')
        | None => None
        end
      else readDigits 4 0 s
  | [] => None
  end.

Notation "'do' x <- a ; b" :=
  (match a with Some x => b | None => None end)
  (at level 10, x pattern, a at level 100, b at level 200, only parsing).

(** The fields of the text [toISOString] writes. *)
Definition readISOFields (s : JSString) : option (Z * JSString) :=
  do (y, s) <- readYear s;
  do s <- expectUnit 45 s;
  do (m, s) <- readDigits 2 0 s;
  do s <- expectUnit 45 s;
  do (d, s) <- readDigits 2 0 s;
  do s <- expectUnit 84 s;
  do (h, s) <- readDigits 2 0 s;
  do s <- expectUnit 58 s;
  do (mi, s) <- readDigits 2 0 s;
  do s <- expectUnit 58 s;
  do (sec, s) <- readDigits 2 0 s;
  do s <- expectUnit 46 s;
  do (ms, s) <- readDigits 3 0 s;
  do s <- expectUnit 90 s;
  Some (MakeDate (daysFromCivil y m d) (MakeTime h mi sec ms), s).

(** [Date.parse] on the text of a valid date as [toISOString] writes it.  Any
    other text is left uninterpreted ([None]): ECMAScript reads a few more
    forms and leaves the rest to the engine, and the component writes none of
    them. *)
Definition parseISO (s : JSString) : option Z :=
  match readISOFields s with
  | Some (t, []) =>
      if validTimeb t && unitsEqb (toISOString t) s then Some t else None
  | _ => None
  end.

(* ================================================================== *)
(** ** JSON text

    Code units that structure the text: 34 the double quote, 44 the comma,
    58 the colon, 91 and 93 the brackets, 92 the backslash, 123 and 125 the
    braces; 43 and 45 the signs, 46 the point, 48 to 57 the digits. *)

Definition hexUnit (d : N) : N := (if d <? 10 then 48 + d else 87 + d)%N.

(** [\uXXXX], lower-case digits. *)
Definition unicodeEscape (c : N) : JSString :=
  [92; 117; hexUnit (c / 4096 mod 16); hexUnit (c / 256 mod 16);
   hexUnit (c / 16 mod 16); hexUnit (c mod 16)]%N.

Definition isHighSurrogate (c : N) : bool := ((55296 <=? c) && (c <=? 56319))%N.
Definition isLowSurrogate (c : N) : bool := ((56320 <=? c) && (c <=? 57343))%N.

(** One code point that is no half of a well-formed pair. *)
Definition quoteUnit (c : N) : JSString :=
  (if c =? 8 then [92; 98]
   else if c =? 9 then [92; 116]
   else if c =? 10 then [92; 110]
   else if c =? 12 then [92; 102]
   else if c =? 13 then [92; 114]
   else if c =? 34 then [92; 34]
   else if c =? 92 then [92; 92]
   else if (c <? 32) || isHighSurrogate c || isLowSurrogate c then unicodeEscape c
   else [c])%N.

Fixpoint quoteUnits (s : JSString) : JSString :=
  match s with
  | [] => []
  | c :: r =>
      if isHighSurrogate c then
        match r with
        | d :: r' =>
            if isLowSurrogate d then c :: d :: quoteUnits r'
            else quoteUnit c ++ quoteUnits r
        | [] => quoteUnit c
        end
      else quoteUnit c ++ quoteUnits r
  end.

(** [QuoteJSONString]. *)
Definition quoteJSONString (s : JSString) : JSString :=
  34%N :: quoteUnits s ++ [34%N].

(** The values [JSON.parse] builds.  A number is kept as its decimal
    reading, sign, mantissa and power of ten. *)
#[local] Set Warnings "-register-all".

Inductive JValue :=
| JNull
| JBool (b : bool)
| JNumber (negative : bool) (mantissa : N) (exponent : Z)
| JString (s : JSString)
| JArray (elements : list JValue)
| JObject (members : list (JSString * JValue)).

Inductive Parsed (A : Type) :=
| POk (a : A) (rest : JSString)
| PSyntaxError
| POutOfFuel.
Arguments POk {A} a rest.
Arguments PSyntaxError {A}.
Arguments POutOfFuel {A}.

Definition isJSONWhiteSpace (c : N) : bool :=
  ((c =? 9) || (c =? 10) || (c =? 13) || (c =? 32))%N.

Fixpoint skipWs (s : JSString) : JSString :=
  match s with
  | c :: r => if isJSONWhiteSpace c then skipWs r else s
  | [] => []
  end.

Definition hexValue (c : N) : option N :=
  (if (48 <=? c) && (c <=? 57) then Some (c - 48)
   else if (97 <=? c) && (c <=? 102) then Some (c - 87)
   else if (65 <=? c) && (c <=? 70) then Some (c - 55)
   else None)%N.

Definition simpleEscape (e : N) : option N :=
  (if e =? 34 then Some 34
   else if e =? 92 then Some 92
   else if e =? 47 then Some 47
   else if e =? 98 then Some 8
   else if e =? 102 then Some 12
   else if e =? 110 then Some 10
   else if e =? 114 then Some 13
   else if e =? 116 then Some 9
   else None)%N.

(** A string after its opening quote, up to and with the closing one. *)
Fixpoint parseString (s : JSString) : option (JSString * JSString) :=
  match s with
  | [] => None
  | c :: r =>
      if (c =? 34)%N then Some ([], r)
      else if (c =? 92)%N then
        match r with
        | [] => None
        | e :: r1 =>
            if (e =? 117)%N then
              match r1 with
              | h1 :: h2 :: h3 :: h4 :: r2 =>
                  match hexValue h1, hexValue h2, hexValue h3, hexValue h4 with
                  | Some a, Some b, Some c', Some d =>
                      match parseString r2 with
                      | Some (str, rest) =>
                          Some ((a * 4096 + b * 256 + c' * 16 + d)%N :: str, rest)
                      | None => None
                      end
                  | _, _, _, _ => None
                  end
              | _ => None
              end
            else
              match simpleEscape e with
              | Some x =>
                  match parseString r1 with
                  | Some (str, rest) => Some (x :: str, rest)
                  | None => None
                  end
              | None => None
              end
        end
      else if (c <? 32)%N then None
      else
        match parseString r with
        | Some (str, rest) => Some (c :: str, rest)
        | None => None
        end
  end.

(** A run of digits read onto [acc]; the count of digits read comes back. *)
Fixpoint readDigitRun (s : JSString) (acc : N) (n : Z) : N * Z * JSString :=
  match s with
  | c :: r =>
      if isDigit c then readDigitRun r (acc * 10 + (c - 48))%N (n + 1)
      else (acc, n, s)
  | [] => (acc, n, [])
  end.

(** [-? int frac? exp?] *)
Definition parseNumber (s : JSString) : Parsed JValue :=
  let '(neg, s0) :=
    match s with
    | c :: r => if (c =? 45)%N then (true, r) else (false, s)
    | [] => (false, s)
    end in
  match s0 with
  | [] => PSyntaxError
  | c :: r =>
      if negb (isDigit c) then PSyntaxError
      else
        let '(ip, _, s1) :=
          if (c =? 48)%N then (0%N, 1, r) else readDigitRun s0 0%N 0 in
        let '(mant, nfrac, s2, okf) :=
          match s1 with
          | p :: r1 =>
              if (p =? 46)%N then
                let '(m, k, r2) := readDigitRun r1 ip 0 in (m, k, r2, 0 <? k)
              else (ip, 0, s1, true)
          | [] => (ip, 0, s1, true)
          end in
        if negb okf then PSyntaxError
        else
          match s2 with
          | e :: r3 =>
              if (e =? 101)%N || (e =? 69)%N then
                let '(eneg, r4) :=
                  match r3 with
                  | sg :: r' =>
                      if (sg =? 45)%N then (true, r')
                      else if (sg =? 43)%N then (false, r')
                      else (false, r3)
                  | [] => (false, r3)
                  end in
                let '(ev, k, r5) := readDigitRun r4 0%N 0 in
                if k =? 0 then PSyntaxError
                else
                  POk (JNumber neg mant
                         ((if eneg then - Z.of_N ev else Z.of_N ev) - nfrac)) r5
              else POk (JNumber neg mant (- nfrac)) s2
          | [] => POk (JNumber neg mant (- nfrac)) s2
          end
  end.

Fixpoint expectUnits (lit s : JSString) : option JSString :=
  match lit with
  | [] => Some s
  | c :: lit' =>
      match s with
      | x :: r => if (x =? c)%N then expectUnits lit' r else None
      | [] => None
      end
  end.

Definition parseLiteral (lit : string) (v : JValue) (s : JSString) : Parsed JValue :=
  match expectUnits (u lit) s with
  | Some rest => POk v rest
  | None => PSyntaxError
  end.

(** The productions of the JSON grammar, over the parsers of what nests
    inside them: a value, the elements of an array after its bracket, the
    members of an object after its brace. *)
Definition valueStep
    (elements : JSString -> Parsed (list JValue))
    (members : JSString -> Parsed (list (JSString * JValue)))
    (s : JSString) : Parsed JValue :=
  match skipWs s with
  | [] => PSyntaxError
  | c :: r =>
      if (c =? 123)%N then
        match skipWs r with
        | [] => PSyntaxError
        | c' :: r' =>
            if (c' =? 125)%N then POk (JObject []) r'
            else
              match members (c' :: r') with
              | POk ms rest => POk (JObject ms) rest
              | PSyntaxError => PSyntaxError
              | POutOfFuel => POutOfFuel
              end
        end
      else if (c =? 91)%N then
        match skipWs r with
        | [] => PSyntaxError
        | c' :: r' =>
            if (c' =? 93)%N then POk (JArray []) r'
            else
              match elements (c' :: r') with
              | POk vs rest => POk (JArray vs) rest
              | PSyntaxError => PSyntaxError
              | POutOfFuel => POutOfFuel
              end
        end
      else if (c =? 34)%N then
        match parseString r with
        | Some (str, rest) => POk (JString str) rest
        | None => PSyntaxError
        end
      else if (c =? 116)%N then parseLiteral "true" (JBool true) (c :: r)
      else if (c =? 102)%N then parseLiteral "false" (JBool false) (c :: r)
      else if (c =? 110)%N then parseLiteral "null" JNull (c :: r)
      else parseNumber (c :: r)
  end.

Definition elementsStep
    (value : JSString -> Parsed JValue)
    (elements : JSString -> Parsed (list JValue))
    (s : JSString) : Parsed (list JValue) :=
  match value s with
  | POk v r =>
      match skipWs r with
      | [] => PSyntaxError
      | c :: r' =>
          if (c =? 44)%N then
            match elements r' with
            | POk vs rest => POk (v :: vs) rest
            | PSyntaxError => PSyntaxError
            | POutOfFuel => POutOfFuel
            end
          else if (c =? 93)%N then POk [v] r'
          else PSyntaxError
      end
  | PSyntaxError => PSyntaxError
  | POutOfFuel => POutOfFuel
  end.

Definition membersStep
    (value : JSString -> Parsed JValue)
    (members : JSString -> Parsed (list (JSString * JValue)))
    (s : JSString) : Parsed (list (JSString * JValue)) :=
  match skipWs s with
  | [] => PSyntaxError
  | q :: r =>
      if negb (q =? 34)%N then PSyntaxError
      else
        match parseString r with
        | None => PSyntaxError
        | Some (k, r1) =>
            match skipWs r1 with
            | [] => PSyntaxError
            | col :: r2 =>
                if negb (col =? 58)%N then PSyntaxError
                else
                  match value r2 with
                  | POk v r3 =>
                      match skipWs r3 with
                      | [] => PSyntaxError
                      | c :: r4 =>
                          if (c =? 44)%N then
                            match members r4 with
                            | POk ms rest => POk ((k, v) :: ms) rest
                            | PSyntaxError => PSyntaxError
                            | POutOfFuel => POutOfFuel
                            end
                          else if (c =? 125)%N then POk [(k, v)] r4
                          else PSyntaxError
                      end
                  | PSyntaxError => PSyntaxError
                  | POutOfFuel => POutOfFuel
                  end
            end
        end
  end.

(** The grammar, each nesting spending one unit of [fuel]; [JSON_parse]
    below supplies enough of it for any text ([parseValue_fuel]). *)
Fixpoint parseValue (fuel : nat) (s : JSString) : Parsed JValue :=
  match fuel with
  | O => POutOfFuel
  | S f => valueStep (parseElements f) (parseMembers f) s
  end
with parseElements (fuel : nat) (s : JSString) : Parsed (list JValue) :=
  match fuel with
  | O => POutOfFuel
  | S f => elementsStep (parseValue f) (parseElements f) s
  end
with parseMembers (fuel : nat) (s : JSString) : Parsed (list (JSString * JValue)) :=
  match fuel with
  | O => POutOfFuel
  | S f => membersStep (parseValue f) (parseMembers f) s
  end.

Definition parseFuel (s : JSString) : nat := 2 * length s + 1.

(** [JSON.parse]: one value, blanks around it, nothing else; [None] is the
    [SyntaxError]. *)
Definition JSON_parse (s : JSString) : option JValue :=
  match parseValue (parseFuel s) s with
  | POk v rest => match skipWs rest with [] => Some v | _ => None end
  | _ => None
  end.

(** Property lookup on a parsed object: of members with one key the last
    one stands. *)
Fixpoint getMember (k : JSString) (ms : list (JSString * JValue)) : option JValue :=
  match ms with
  | [] => None
  | (k', v) :: r =>
      match getMember k r with
      | Some v' => Some v'
      | None => if unitsEqb k' k then Some v else None
      end
  end.

(** [value.key] on a parsed value that is not [null]: only an object has
    named members of its own. *)
Definition getProp (k : JSString) (v : JValue) : option JValue :=
  match v with
  | JObject ms => getMember k ms
  | _ => None
  end.

(** The number a decimal reading rounds to is zero: a zero mantissa, or a
    magnitude of at most half the least subnormal, [2^-1075]. *)
Definition numberIsZero (mant : N) (exp : Z) : bool :=
  (mant =? 0)%N
  || ((exp <? 0) && (Z.of_N mant * 2 ^ 1075 <=? 10 ^ (- exp))).

(** [ToBoolean] on a property read: absent ([undefined]), [null], [false],
    zero and the empty string are falsy. *)
Definition truthy (v : option JValue) : bool :=
  match v with
  | None => false
  | Some JNull => false
  | Some (JBool b) => b
  | Some (JNumber _ m e) => negb (numberIsZero m e)
  | Some (JString s) => negb (isEmptyString s)
  | Some (JArray _) => true
  | Some (JObject _) => true
  end.

(** [ToPrimitive] on a parsed value throws a [TypeError] when no method
    gives a primitive: an object whose own [toString] member (never a
    function) hides [Object.prototype.toString], or an array that joins
    such an object. *)
Fixpoint toPrimitiveThrows (v : JValue) : bool :=
  match v with
  | JObject ms =>
      match getMember (u "toString") ms with Some _ => true | None => false end
  | JArray l => existsb toPrimitiveThrows l
  | _ => false
  end.

(** Completions of the statements of an effect. *)
Inductive Exn := SyntaxError | TypeError.

Inductive Completion (A : Type) :=
| Normal (a : A)
| Throw (e : Exn).
Arguments Normal {A} a.
Arguments Throw {A} e.

Definition bindC {A B} (c : Completion A) (k : A -> Completion B) : Completion B :=
  match c with
  | Normal a => k a
  | Throw e => Throw e
  end.

Definition tryCatch {A} (body : Completion A) (handler : Exn -> Completion A)
  : Completion A :=
  match body with
  | Normal a => Normal a
  | Throw e => handler e
  end.

(** [Array.prototype.map] with a callback that may throw. *)
Fixpoint mapC {A B} (f : A -> Completion B) (l : list A) : Completion (list B) :=
  match l with
  | [] => Normal []
  | x :: r => bindC (f x) (fun y => bindC (mapC f r) (fun ys => Normal (y :: ys)))
  end.

(** The state a mount leaves behind: the tasks and what was written to the
    console. *)
Record Mounted (S : Type) := mkMounted
  { mountedTasks : S; consoleErrors : list JSString }.
Arguments mkMounted {S} _ _.
Arguments mountedTasks {S} _.
Arguments consoleErrors {S} _.

Definition parseDiagnostic : JSString :=
  u "Failed to parse tasks from localStorage".

Fixpoint joinWith (sep : JSString) (l : list JSString) : JSString :=
  match l with
  | [] => []
  | [x] => x
  | x :: r => x ++ sep ++ joinWith sep r
  end.

(** [ "key": ] *)
Definition memberKey (k : string) : JSString := 34%N :: u k ++ [34%N; 58%N].

(** The interactions with the component: typing into the text field, picking
    or clearing a date (version 2), the Add button at a clock reading, the
    toggle and delete buttons of a task. *)
Inductive Action :=
| ASetInput (v : JSString)
| ASelectDate (d : option Z)
| AAdd (now : Z)
| AToggle (i : JSString)
| ADelete (i : JSString).

(* ================================================================== *)
(** ** Version 1 of the component (no due dates) *)

Module V1.

Record Task := mkTask
  { id : JSString; text : JSString; completed : bool }.

Record State := mkState
  { tasks : list Task; inputValue : JSString }.

Definition initialState : State := mkState [] [].

Definition setInputValue (v : JSString) (st : State) : State :=
  mkState (tasks st) v.

Definition addTask (now : Z) (st : State) : State :=
  let trimmedText := trim (inputValue st) in
  if isEmptyString trimmedText then st
  else
    let newTask := mkTask (numberToString now) trimmedText false in
    mkState (tasks st ++ [newTask]) [].

Definition toggleTasks (i : JSString) (l : list Task) : list Task :=
  map (fun task =>
         if unitsEqb (id task) i
         then mkTask (id task) (text task) (negb (completed task))
         else task) l.

Definition toggleComplete (i : JSString) (st : State) : State :=
  mkState (toggleTasks i (tasks st)) (inputValue st).

Definition deleteTasks (i : JSString) (l : list Task) : list Task :=
  filter (fun task => negb (unitsEqb (id task) i)) l.

Definition deleteTask (i : JSString) (st : State) : State :=
  mkState (deleteTasks i (tasks st)) (inputValue st).

Definition step (st : State) (a : Action) : State :=
  match a with
  | ASetInput v => setInputValue v st
  | ASelectDate _ => st
  | AAdd now => addTask now st
  | AToggle i => toggleComplete i st
  | ADelete i => deleteTask i st
  end.

Definition run (acts : list Action) (st : State) : State :=
  fold_left step acts st.

(** *** The mirror in [localStorage] *)

(** [JSON.stringify] on an array of tasks. *)
Definition stringifyTask (t : Task) : JSString :=
  [123%N] ++ memberKey "id" ++ quoteJSONString (id t)
    ++ [44%N] ++ memberKey "text" ++ quoteJSONString (text t)
    ++ [44%N] ++ memberKey "completed"
    ++ u (if completed t then "true" else "false")
    ++ [125%N].

Definition JSON_stringify (l : list Task) : JSString :=
  [91%N] ++ joinWith [44%N] (map stringifyTask l) ++ [93%N].

(** The effect on [tasks]: the text written under the key. *)
Definition saveTasks (l : list Task) : JSString := JSON_stringify l.

(** The [try] block of the effect on mount: the value handed to
    [setTasks]. *)
Definition loadBody (savedTasks : JSString) : Completion JValue :=
  match JSON_parse savedTasks with
  | Some v => Normal v
  | None => Throw SyntaxError
  end.

(** The effect on mount, from what [getItem] returns ([None] for [null]).
    The state starts as the empty array and whatever [JSON.parse] returns
    replaces it. *)
Definition loadTasks (saved : option JSString) : Completion (Mounted JValue) :=
  match saved with
  | None => Normal (mkMounted (JArray []) [])
  | Some savedTasks =>
      if isEmptyString savedTasks then Normal (mkMounted (JArray []) [])
      else
        tryCatch
          (bindC (loadBody savedTasks) (fun v => Normal (mkMounted v [])))
          (fun _ => Normal (mkMounted (JArray []) [parseDiagnostic]))
  end.

(** A parsed value read as a task: an object with a string [id], a string
    [text] and a boolean [completed]. *)
Definition asTask (v : JValue) : option Task :=
  match getProp (u "id") v, getProp (u "text") v, getProp (u "completed") v with
  | Some (JString i), Some (JString t), Some (JBool c) => Some (mkTask i t c)
  | _, _, _ => None
  end.

(** [handleKeyPress]: the Enter key in the text field adds, no other key
    does anything. *)
Definition handleKeyPress (key : JSString) (now : Z) (st : State) : State :=
  if unitsEqb key (u "Enter") then addTask now st else st.

End V1.

(* ================================================================== *)
(** ** Version 2 of the component (due dates, sorting, overdue flag) *)

Module V2.

Record Task := mkTask
  { id : JSString; text : JSString; completed : bool; dueDate : option Z }.

Inductive SortOption := SortNone | SortDeadline.

Record State := mkState
  { tasks : list Task;
    inputValue : JSString;
    selectedDate : option Z;
    sortBy : SortOption }.

Definition initialState : State := mkState [] [] None SortDeadline.

Definition setInputValue (v : JSString) (st : State) : State :=
  mkState (tasks st) v (selectedDate st) (sortBy st).

Definition setSelectedDate (d : option Z) (st : State) : State :=
  mkState (tasks st) (inputValue st) d (sortBy st).

Definition setSortBy (o : SortOption) (st : State) : State :=
  mkState (tasks st) (inputValue st) (selectedDate st) o.

Definition addTask (now : Z) (st : State) : State :=
  let trimmedText := trim (inputValue st) in
  if isEmptyString trimmedText then st
  else
    let newTask :=
      mkTask (numberToString now) trimmedText false (selectedDate st) in
    mkState (tasks st ++ [newTask]) [] None (sortBy st).

Definition toggleTasks (i : JSString) (l : list Task) : list Task :=
  map (fun task =>
         if unitsEqb (id task) i
         then mkTask (id task) (text task) (negb (completed task)) (dueDate task)
         else task) l.

Definition toggleComplete (i : JSString) (st : State) : State :=
  mkState (toggleTasks i (tasks st)) (inputValue st) (selectedDate st) (sortBy st).

Definition deleteTasks (i : JSString) (l : list Task) : list Task :=
  filter (fun task => negb (unitsEqb (id task) i)) l.

Definition deleteTask (i : JSString) (st : State) : State :=
  mkState (deleteTasks i (tasks st)) (inputValue st) (selectedDate st) (sortBy st).

(** *** Overdue flag

    [startOfDay] and [isBefore] are date-fns': [startOfDay] sets the hours
    of a copy of the date to [0, 0, 0, 0], which is midnight of the date's
    local day under the rules of the host's zone [tz] (an Invalid Date when
    that instant is out of range); [isBefore] is [<] on the two time
    values, false when either date is invalid. *)

Definition startOfDay (tz : TimeZone) (t : Z) : option Z :=
  setHours tz t 0 0 0 0.

Definition isBefore (a b : option Z) : bool :=
  match a, b with
  | Some x, Some y => x <? y
  | _, _ => false
  end.

Definition isOverdue (tz : TimeZone) (now : Z) (task : Task) : bool :=
  match dueDate task with
  | None => false
  | Some due =>
      if completed task then false
      else
        let today := startOfDay tz now in
        let taskDueDate := startOfDay tz due in
        isBefore taskDueDate today
  end.

(** The local calendar day of a time value, as a day number. *)
Definition calendarDay (tz : TimeZone) (t : Z) : Z := Day (LocalTime tz t).

(** *** Sorted view *)

(** The comparator handed to [sort].  The difference of two time values is
    taken on integers: its sign is the sign of the floating-point
    difference, which is all [sort] reads. *)
Definition compareTasks (a b : Task) : Z :=
  if negb (Bool.eqb (completed a) (completed b)) then
    (if completed a then 1 else -1)
  else
    match dueDate a, dueDate b with
    | Some da, Some db => da - db
    | Some _, None => -1
    | None, Some _ => 1
    | None, None => 0
    end.

Definition getSortedTasks (st : State) : list Task :=
  match sortBy st with
  | SortNone => tasks st
  | SortDeadline => arraySort compareTasks (tasks st)
  end.

(** The ordering of the specification, rule by rule: incomplete before
    completed; then dated before undated; then by ascending date; a tie
    otherwise. *)
Definition deadlineOrder (a b : Task) : comparison :=
  match completed a, completed b with
  | false, true => Lt
  | true, false => Gt
  | _, _ =>
      match dueDate a, dueDate b with
      | Some _, None => Lt
      | None, Some _ => Gt
      | Some da, Some db => da ?= db
      | None, None => Eq
      end
  end.

Definition step (st : State) (a : Action) : State :=
  match a with
  | ASetInput v => setInputValue v st
  | ASelectDate d => setSelectedDate d st
  | AAdd now => addTask now st
  | AToggle i => toggleComplete i st
  | ADelete i => deleteTask i st
  end.

Definition run (acts : list Action) (st : State) : State :=
  fold_left step acts st.

(** *** The mirror in [localStorage] *)

(** [JSON.stringify] on an array of tasks: a due date goes through
    [toJSON], a task without one has no [dueDate] member. *)
Definition stringifyTask (t : Task) : JSString :=
  [123%N] ++ memberKey "id" ++ quoteJSONString (id t)
    ++ [44%N] ++ memberKey "text" ++ quoteJSONString (text t)
    ++ [44%N] ++ memberKey "completed"
    ++ u (if completed t then "true" else "false")
    ++ match dueDate t with
       | Some d => [44%N] ++ memberKey "dueDate" ++ quoteJSONString (toISOString d)
       | None => []
       end
    ++ [125%N].

Definition JSON_stringify (l : list Task) : JSString :=
  [91%N] ++ joinWith [44%N] (map stringifyTask l) ++ [93%N].

(** The effect on [tasks]: the text written under the key. *)
Definition saveTasks (l : list Task) : JSString := JSON_stringify l.

(** An element of [tasksWithDates], the object
    [{...task, dueDate: task.dueDate ? new Date(task.dueDate) : undefined}]:
    the parsed element whose members were spread, and the value [new Date]
    was applied to when there was a truthy one. *)
Record TaskWithDate := mkTaskWithDate
  { spreadOf : JValue; dateOf : option JValue }.

(** The callback of [parsedTasks.map].  Reading [dueDate] off [null]
    throws, and so does [new Date] on a value with no primitive. *)
Definition withDate (task : JValue) : Completion TaskWithDate :=
  match task with
  | JNull => Throw TypeError
  | _ =>
      let due := getProp (u "dueDate") task in
      if truthy due then
        match due with
        | Some v =>
            if toPrimitiveThrows v then Throw TypeError
            else Normal (mkTaskWithDate task (Some v))
        | None => Normal (mkTaskWithDate task None)
        end
      else Normal (mkTaskWithDate task None)
  end.

(** The [try] block of the effect on mount: the value handed to
    [setTasks].  Only an array has a [map] to call. *)
Definition loadBody (savedTasks : JSString) : Completion (list TaskWithDate) :=
  match JSON_parse savedTasks with
  | None => Throw SyntaxError
  | Some parsedTasks =>
      match parsedTasks with
      | JArray elements => mapC withDate elements
      | _ => Throw TypeError
      end
  end.

(** The effect on mount, from what [getItem] returns ([None] for [null]). *)
Definition loadTasks (saved : option JSString)
  : Completion (Mounted (list TaskWithDate)) :=
  match saved with
  | None => Normal (mkMounted [] [])
  | Some savedTasks =>
      if isEmptyString savedTasks then Normal (mkMounted [] [])
      else
        tryCatch
          (bindC (loadBody savedTasks) (fun l => Normal (mkMounted l [])))
          (fun _ => Normal (mkMounted [] [parseDiagnostic]))
  end.

(** An element of [tasksWithDates] read as a task: the spread of an object
    with a string [id], a string [text] and a boolean [completed], and for
    its due date nothing or the date of an ISO text. *)
Definition asTask (o : TaskWithDate) : option Task :=
  match getProp (u "id") (spreadOf o), getProp (u "text") (spreadOf o),
        getProp (u "completed") (spreadOf o) with
  | Some (JString i), Some (JString t), Some (JBool c) =>
      match dateOf o with
      | None => Some (mkTask i t c None)
      | Some (JString iso) =>
          match parseISO iso with
          | Some d => Some (mkTask i t c (Some d))
          | None => None
          end
      | Some _ => None
      end
  | _, _, _ => None
  end.

(** The shape the stored text is expected to parse into: an array of
    objects with a string [id], a string [text], a boolean [completed] and
    a [dueDate] that is a string or absent. *)
Definition taskShaped (v : JValue) : bool :=
  match v with
  | JObject _ =>
      match getProp (u "id") v, getProp (u "text") v, getProp (u "completed") v with
      | Some (JString _), Some (JString _), Some (JBool _) =>
          match getProp (u "dueDate") v with
          | None => true
          | Some (JString _) => true
          | Some _ => false
          end
      | _, _, _ => false
      end
  | _ => false
  end.

Definition expectedShape (v : JValue) : bool :=
  match v with
  | JArray l => forallb taskShaped l
  | _ => false
  end.

(** [handleKeyPress]: the Enter key in the text field adds, no other key
    does anything. *)
Definition handleKeyPress (key : JSString) (now : Z) (st : State) : State :=
  if unitsEqb key (u "Enter") then addTask now st else st.

(** The [disabled] filter of the calendar: the dates before the start of
    the current day cannot be picked. *)
Definition dateDisabled (tz : TimeZone) (now date : Z) : bool :=
  isBefore (Some date) (startOfDay tz now).

(** The two counts of the footer. *)
Definition activeCount (l : list Task) : nat :=
  length (filter (fun t => negb (completed t)) l).

Definition completedCount (l : list Task) : nat :=
  length (filter (fun t => completed t) l).

End V2.

(* ================================================================== *)
(** ** Vocabulary of the properties *)

(** At every Add pressed on a non-blank input, the decimal text of the clock
    reading is the id of no task in the store at that moment. *)
Fixpoint freshClocks (st : V2.State) (acts : list Action) : Prop :=
  match acts with
  | [] => True
  | a :: r =>
      match a with
      | AAdd now =>
          trim (V2.inputValue st) <> [] ->
          ~ In (numberToString now) (map V2.id (V2.tasks st))
      | _ => True
      end
      /\ freshClocks (V2.step st a) r
  end.

(** The clock readings of the Adds of a run, in order. *)
Fixpoint addClocks (acts : list Action) : list Z :=
  match acts with
  | [] => []
  | AAdd now :: r => now :: addClocks r
  | _ :: r => addClocks r
  end.

(** Every id of the store is the text of a reading below [bound]. *)
Definition idsBelow (bound : Z) (st : V2.State) : Prop :=
  forall i, In i (map V2.id (V2.tasks st)) ->
            exists c, i = numberToString c /\ c < bound.

(** A task of version 2 without its due date, and a state of version 2
    without its date selection and sort mode. *)
Definition forgetDate (t : V2.Task) : V1.Task :=
  V1.mkTask (V2.id t) (V2.text t) (V2.completed t).

Definition forgetDates (st : V2.State) : V1.State :=
  V1.mkState (map forgetDate (V2.tasks st)) (V2.inputValue st).

(** A store with a completed task, an undated one and two tasks due at the
    same time. *)
Definition exampleStore : V2.State :=
  V2.mkState
    [V2.mkTask (u "1") (u "done") true (Some 5);
     V2.mkTask (u "2") (u "later") false (Some 9);
     V2.mkTask (u "3") (u "undated") false None;
     V2.mkTask (u "4") (u "first of two") false (Some 7);
     V2.mkTask (u "5") (u "second of two") false (Some 7)]
    [] None V2.SortDeadline.

(** [f] holds on the [p] integers from [base] on; the range is halved at
    each step, which keeps the check of a whole era shallow. *)
Fixpoint allInRange (p : positive) (base : Z) (f : Z -> bool) : bool :=
  match p with
  | xH => f base
  | xO q => allInRange q base f && allInRange q (base + Zpos q) f
  | xI q => f base && allInRange q (base + 1) f && allInRange q (base + 1 + Zpos q) f
  end.

(** The year of the era and the day of that year, for a day of the era. *)
Definition eraYear (doe : Z) : Z :=
  (doe - doe / 1460 + doe / 36524 - doe / 146096) / 365.

Definition eraDayOfYear (doe : Z) : Z :=
  doe - (365 * eraYear doe + eraYear doe / 4 - eraYear doe / 100).

Definition eraInBounds (doe : Z) : bool :=
  (0 <=? eraYear doe) && (eraYear doe <=? 399)
  && (0 <=? eraDayOfYear doe) && (eraDayOfYear doe <=? 365).

(** A result is refined by another when it ran out of fuel or is that
    result. *)
Definition refinedBy {A} (r r' : Parsed A) : Prop := r = POutOfFuel \/ r = r'.

(** A parser that succeeds leaves less than it was given. *)
Definition Consumes {A} (p : JSString -> Parsed A) : Prop :=
  forall s a rest, p s = POk a rest -> (length rest < length s)%nat.

(** The value [JSON.parse] builds from the text of a task. *)
Definition taskJSON (t : V2.Task) : JValue :=
  JObject
    ([(u "id", JString (V2.id t)); (u "text", JString (V2.text t));
      (u "completed", JBool (V2.completed t))]
     ++ match V2.dueDate t with
        | Some d => [(u "dueDate", JString (toISOString d))]
        | None => []
        end).

(** The element of [tasksWithDates] made from the parsed text of a task. *)
Definition revived (t : V2.Task) : V2.TaskWithDate :=
  V2.mkTaskWithDate (taskJSON t)
    (match V2.dueDate t with
     | Some d => Some (JString (toISOString d))
     | None => None
     end).

(** A text that is not empty and neither starts nor ends with white space
    (32 is the space). *)
Definition trimmedText (s : JSString) : Prop :=
  isWhiteSpace (hd 32%N s) = false /\ isWhiteSpace (last s 32%N) = false.

(** The ids of the Delete presses of a run. *)
Fixpoint deletedIds (acts : list Action) : list JSString :=
  match acts with
  | [] => []
  | ADelete i :: r => i :: deletedIds r
  | _ :: r => deletedIds r
  end.

(** A state with its task list replaced. *)
Definition withTasks (l : list V2.Task) (st : V2.State) : V2.State :=
  V2.mkState l (V2.inputValue st) (V2.selectedDate st) (V2.sortBy st).

(** The value [JSON.parse] builds from the text of a task of version 1. *)
Definition taskJSON1 (t : V1.Task) : JValue :=
  JObject
    [(u "id", JString (V1.id t)); (u "text", JString (V1.text t));
     (u "completed", JBool (V1.completed t))].

(** A task of version 1 as a task of version 2, with no due date. *)
Definition undated (t : V1.Task) : V2.Task :=
  V2.mkTask (V1.id t) (V1.text t) (V1.completed t) None.

(** What a run of actions leaves of a list of tasks, apart from the tasks
    it adds: the toggles and deletes of the run, applied in order. *)
Fixpoint keptTasks (acts : list Action) (l : list V2.Task) : list V2.Task :=
  match acts with
  | [] => l
  | AToggle i :: r => keptTasks r (V2.toggleTasks i l)
  | ADelete i :: r => keptTasks r (V2.deleteTasks i l)
  | _ :: r => keptTasks r l
  end.

(** A state of version 1 as a state of version 2: no due dates, no date
    picked, the sort mode on none. *)
Definition asVersion2 (st : V1.State) : V2.State :=
  V2.mkState (map undated (V1.tasks st)) (V1.inputValue st) None V2.SortNone.

(** The instant at which local day [k] starts: local midnight, read back as
    an instant. *)
Definition localMidnight (tz : TimeZone) (k : Z) : Z := UTC tz (k * msPerDay).

(** The offsets of the zone lie less than a day apart. *)
Definition offsetsWithinADay (tz : TimeZone) : Prop :=
  forall x y, offsetOfLocal tz x - offsetOfLocal tz y < msPerDay.

(** A zone in which, besides, the local calendar day never goes back as
    time goes on, and the start of a local day is an instant of that day
    that no instant of the day precedes. *)
Record RegularZone (tz : TimeZone) : Prop := {
  rz_offsets : offsetsWithinADay tz;
  rz_days : forall a b, a <= b -> V2.calendarDay tz a <= V2.calendarDay tz b;
  rz_start : forall t,
      localMidnight tz (V2.calendarDay tz t) <= t
      /\ V2.calendarDay tz (localMidnight tz (V2.calendarDay tz t))
         = V2.calendarDay tz t
}.

(** A zone at a fixed offset from UTC. *)
Definition fixedZone (o : Z) : TimeZone := mkTimeZone (fun _ => o) (fun _ => o).

(** US Eastern time around the end of daylight saving time in 2023: four
    hours behind UTC until 2023-11-05T06:00:00Z (02:00 local), five hours
    behind from then on; the local hour from 01:00 to 02:00 of that day
    occurs twice and is read as the first of the two. *)
Definition easternFall2023 : TimeZone :=
  mkTimeZone
    (fun t => if t <? 1699164000000 then -14400000 else -18000000)
    (fun t => if t <? 1699149600000 then -14400000 else -18000000).

(* ================================================================== *)
(** * Properties *)

(** ** Strings *)

Lemma unitsEqb_eq (a b : JSString) : unitsEqb a b = true <-> a = b.
Proof.
  revert b; induction a as [|x a IH]; intros [|y b]; simpl; split;
    try congruence; try reflexivity.
  - intros H. apply andb_true_iff in H as [Hx Hr].
    apply N.eqb_eq in Hx. apply IH in Hr. congruence.
  - intros H. injection H as -> ->. rewrite N.eqb_refl. simpl. now apply IH.
Qed.

Lemma unitsEqb_refl (a : JSString) : unitsEqb a a = true.
Proof. now apply unitsEqb_eq. Qed.

Lemma unitsEqb_neq (a b : JSString) : unitsEqb a b = false <-> a <> b.
Proof.
  split.
  - intros H E. apply unitsEqb_eq in E. congruence.
  - intros H. destruct (unitsEqb a b) eqn:E; [|reflexivity].
    apply unitsEqb_eq in E. contradiction.
Qed.

Lemma trimStart_nil (s : JSString) :
  trimStart s = [] <-> forallb isWhiteSpace s = true.
Proof.
  induction s as [|c s IH]; simpl; [tauto|].
  destruct (isWhiteSpace c); simpl; [exact IH|].
  split; discriminate.
Qed.

(** What [trimStart] leaves starts with a unit that is no white space. *)
Lemma trimStart_head (s : JSString) c r :
  trimStart s = c :: r -> isWhiteSpace c = false.
Proof.
  induction s as [|x s IH]; simpl; [discriminate|].
  destruct (isWhiteSpace x) eqn:E; [exact IH|].
  intros H. injection H as -> _. exact E.
Qed.

Lemma forallb_rev {A} (p : A -> bool) (l : list A) :
  forallb p (rev l) = forallb p l.
Proof.
  induction l as [|x l IH]; simpl; [reflexivity|].
  rewrite forallb_app, IH. simpl. rewrite andb_true_r. apply andb_comm.
Qed.

Lemma trimStart_forallb (s : JSString) :
  forallb isWhiteSpace (trimStart s) = forallb isWhiteSpace s.
Proof.
  induction s as [|c s IH]; simpl; [reflexivity|].
  destruct (isWhiteSpace c) eqn:E; simpl; [exact IH|].
  now rewrite E.
Qed.

(** The trimmed form is empty exactly for the empty and the white-space-only
    strings. *)
Lemma trim_nil (s : JSString) :
  trim s = [] <-> forallb isWhiteSpace s = true.
Proof.
  unfold trim, trimEnd.
  rewrite <- trimStart_forallb, <- (forallb_rev _ (trimStart s)), <- trimStart_nil.
  split; intros H.
  - apply (f_equal (@rev N)) in H. now rewrite rev_involutive in H.
  - now rewrite H.
Qed.

Lemma isEmptyString_true (s : JSString) : isEmptyString s = true <-> s = [].
Proof. destruct s; simpl; split; congruence. Qed.

Lemma uintUnits_inj (d d' : Decimal.uint) : uintUnits d = uintUnits d' -> d = d'.
Proof.
  revert d'; induction d; intros d'; destruct d'; simpl; intros H;
    try discriminate; try reflexivity;
    injection H as H; f_equal; now apply IHd.
Qed.

Lemma uintUnits_digits (d : Decimal.uint) : Forall (fun c => isDigit c = true) (uintUnits d).
Proof. induction d; simpl; constructor; auto. Qed.

(** Distinct clock readings give distinct ids. *)
Lemma numberToString_inj (n m : Z) : numberToString n = numberToString m -> n = m.
Proof.
  unfold numberToString. intros H. apply DecimalZ.to_int_inj.
  destruct (Z.to_int n) as [d|d], (Z.to_int m) as [d'|d'].
  - f_equal. now apply uintUnits_inj.
  - exfalso. pose proof (uintUnits_digits d) as F. rewrite H in F.
    inversion F; subst. discriminate.
  - exfalso. pose proof (uintUnits_digits d') as F. rewrite <- H in F.
    inversion F; subst. discriminate.
  - injection H as H. f_equal. now apply uintUnits_inj.
Qed.

(** ** The store operations *)

Lemma toggleTasks_ids (i : JSString) (l : list V2.Task) :
  map V2.id (V2.toggleTasks i l) = map V2.id l.
Proof.
  unfold V2.toggleTasks. rewrite map_map. apply map_ext.
  intros t. now destruct (unitsEqb (V2.id t) i).
Qed.

Lemma toggleTasks_absent (i : JSString) (l : list V2.Task) :
  ~ In i (map V2.id l) -> V2.toggleTasks i l = l.
Proof.
  induction l as [|t l IH]; simpl; intros H; [reflexivity|].
  destruct (unitsEqb (V2.id t) i) eqn:E.
  - apply unitsEqb_eq in E. tauto.
  - f_equal. apply IH. tauto.
Qed.

Lemma toggleTasks_twice (i : JSString) (l : list V2.Task) :
  V2.toggleTasks i (V2.toggleTasks i l) = l.
Proof.
  induction l as [|t l IH]; simpl; [reflexivity|].
  f_equal; [|exact IH].
  destruct (unitsEqb (V2.id t) i) eqn:E; simpl; rewrite E; [|reflexivity].
  destruct t; simpl. now rewrite negb_involutive.
Qed.

Lemma deleteTasks_ids (i : JSString) (l : list V2.Task) :
  map V2.id (V2.deleteTasks i l)
  = filter (fun j => negb (unitsEqb j i)) (map V2.id l).
Proof.
  induction l as [|t l IH]; simpl; [reflexivity|].
  destruct (unitsEqb (V2.id t) i); simpl; now rewrite IH.
Qed.

Lemma deleteTasks_absent (i : JSString) (l : list V2.Task) :
  ~ In i (map V2.id l) -> V2.deleteTasks i l = l.
Proof.
  induction l as [|t l IH]; simpl; intros H; [reflexivity|].
  destruct (unitsEqb (V2.id t) i) eqn:E; simpl.
  - apply unitsEqb_eq in E. tauto.
  - f_equal. apply IH. tauto.
Qed.

Lemma deleteTasks_gone (i : JSString) (l : list V2.Task) :
  ~ In i (map V2.id (V2.deleteTasks i l)).
Proof.
  rewrite deleteTasks_ids. intros H. apply filter_In in H as [_ H].
  now rewrite unitsEqb_refl in H.
Qed.

(** With distinct ids the task of id [i] is alone, and deleting it takes it
    out from between its neighbours. *)
Lemma deleteTasks_unique (i : JSString) (l : list V2.Task) :
  NoDup (map V2.id l) -> In i (map V2.id l) ->
  exists l1 t l2,
    l = l1 ++ t :: l2 /\ V2.id t = i /\ V2.deleteTasks i l = l1 ++ l2.
Proof.
  induction l as [|t l IH]; simpl; intros ND HIn; [contradiction|].
  inversion ND as [|? ? Hnot ND']; subst.
  destruct (unitsEqb (V2.id t) i) eqn:E; simpl.
  - apply unitsEqb_eq in E. subst i.
    exists [], t, l. simpl. repeat split.
    now apply deleteTasks_absent.
  - apply unitsEqb_neq in E. destruct HIn as [HIn|HIn]; [contradiction|].
    destruct (IH ND' HIn) as (l1 & t' & l2 & -> & Hid & Hdel).
    exists (t :: l1), t', l2. simpl. rewrite Hdel. auto.
Qed.

Lemma addTask_nonblank (now : Z) (st : V2.State) :
  trim (V2.inputValue st) <> [] ->
  V2.addTask now st
  = V2.mkState
      (V2.tasks st
         ++ [V2.mkTask (numberToString now) (trim (V2.inputValue st)) false
               (V2.selectedDate st)])
      [] None (V2.sortBy st).
Proof.
  intros H. unfold V2.addTask.
  destruct (trim (V2.inputValue st)); [contradiction|reflexivity].
Qed.

Lemma addTask_blank (now : Z) (st : V2.State) :
  trim (V2.inputValue st) = [] -> V2.addTask now st = st.
Proof. intros H. unfold V2.addTask. now rewrite H. Qed.

Lemma step_ids_distinct (st : V2.State) (a : Action) :
  NoDup (map V2.id (V2.tasks st)) ->
  match a with
  | AAdd now =>
      trim (V2.inputValue st) <> [] ->
      ~ In (numberToString now) (map V2.id (V2.tasks st))
  | _ => True
  end ->
  NoDup (map V2.id (V2.tasks (V2.step st a))).
Proof.
  intros ND Hfresh. destruct a as [v|d|now|i|i]; simpl; try assumption.
  - destruct (list_eq_dec N.eq_dec (trim (V2.inputValue st)) []) as [E|E].
    + now rewrite addTask_blank.
    + rewrite addTask_nonblank by assumption. simpl.
      rewrite map_app. simpl.
      apply NoDup_rev in ND.
      rewrite <- (rev_involutive (map V2.id (V2.tasks st) ++ _)).
      apply NoDup_rev. rewrite rev_app_distr. simpl. constructor; [|assumption].
      rewrite <- in_rev. now apply Hfresh.
  - now rewrite toggleTasks_ids.
  - rewrite deleteTasks_ids. now apply NoDup_filter.
Qed.

Lemma run_ids_distinct (acts : list Action) (st : V2.State) :
  NoDup (map V2.id (V2.tasks st)) -> freshClocks st acts ->
  NoDup (map V2.id (V2.tasks (V2.run acts st))).
Proof.
  revert st; induction acts as [|a acts IH]; intros st ND Hf; simpl; [assumption|].
  destruct Hf as [Ha Hr]. apply IH; [|assumption].
  now apply step_ids_distinct.
Qed.

Lemma step_idsBelow (bound : Z) (st : V2.State) (a : Action) :
  idsBelow bound st ->
  match a with AAdd now => now < bound | _ => True end ->
  idsBelow bound (V2.step st a).
Proof.
  intros H Ha i. destruct a as [v|d|now|j|j]; simpl; try apply H.
  - unfold V2.addTask. destruct (isEmptyString _); [apply H|]. simpl.
    rewrite map_app, in_app_iff. simpl. intros [Hi|[Hi|[]]]; [now apply H|].
    exists now. split; [now symmetry|assumption].
  - rewrite toggleTasks_ids. apply H.
  - rewrite deleteTasks_ids. intros Hi. apply filter_In in Hi as [Hi _]. now apply H.
Qed.

Lemma idsBelow_weaken (b b' : Z) (st : V2.State) :
  b <= b' -> idsBelow b st -> idsBelow b' st.
Proof.
  intros Hle H i Hi. destruct (H i Hi) as (c & -> & Hc). exists c. split; [reflexivity|lia].
Qed.

Lemma increasing_clocks_fresh (acts : list Action) (st : V2.State) (bound : Z) :
  idsBelow bound st ->
  StronglySorted Z.lt (addClocks acts) ->
  Forall (fun c => bound <= c) (addClocks acts) ->
  freshClocks st acts.
Proof.
  revert st bound; induction acts as [|a acts IH]; intros st bound Hb Hs Hge;
    simpl; [exact I|].
  destruct a as [v|d|now|j|j]; simpl in Hs, Hge.
  1,2,4,5: split; [exact I|]; apply (IH _ bound); auto;
           apply step_idsBelow; simpl; auto.
  inversion Hs as [|? ? Hs' Hlt]; subst. inversion Hge as [|? ? Hnow Hge']; subst.
  split.
  - intros _ Hin. destruct (Hb _ Hin) as (c & Hc & Hlt').
    apply numberToString_inj in Hc. lia.
  - apply (IH _ (now + 1)); auto.
    + apply step_idsBelow; simpl; [|lia]. apply (idsBelow_weaken bound); [lia|assumption].
    + rewrite Forall_forall in *. intros c Hc. specialize (Hlt c Hc). lia.
Qed.

(** ** The two versions side by side *)

Lemma step_forgetDates (st : V2.State) (a : Action) :
  V1.step (forgetDates st) a = forgetDates (V2.step st a).
Proof.
  destruct a as [v|d|now|i|i]; simpl; try reflexivity.
  - unfold V1.addTask, V2.addTask, forgetDates. simpl.
    destruct (isEmptyString (trim (V2.inputValue st))); [reflexivity|].
    simpl. now rewrite map_app.
  - unfold V1.toggleComplete, V2.toggleComplete, forgetDates. simpl. f_equal.
    unfold V1.toggleTasks, V2.toggleTasks. rewrite !map_map. apply map_ext.
    intros t. simpl. now destruct (unitsEqb (V2.id t) i).
  - unfold V1.deleteTask, V2.deleteTask, forgetDates. simpl. f_equal.
    induction (V2.tasks st) as [|t l IH]; simpl; [reflexivity|].
    destruct (unitsEqb (V2.id t) i); simpl; now rewrite IH.
Qed.

Lemma run_forgetDates (acts : list Action) (st : V2.State) :
  V1.run acts (forgetDates st) = forgetDates (V2.run acts st).
Proof.
  revert st; induction acts as [|a acts IH]; intros st; simpl; [reflexivity|].
  now rewrite step_forgetDates, IH.
Qed.

Lemma forgetDate_ids (l : list V2.Task) :
  map V1.id (map forgetDate l) = map V2.id l.
Proof. rewrite map_map. now apply map_ext. Qed.

(** ** The claims on the store *)

(** C3. Add on an input whose trimmed form is empty, which is an input that
    is empty or made of white space only, returns the state it was given, in
    both versions: the task sequence is unchanged and nothing is raised. *)
Theorem addTask_blank_is_noop (input : JSString) (now : Z) :
  trim input = [] ->
  (forall st, V1.inputValue st = input -> V1.addTask now st = st)
  /\ (forall st, V2.inputValue st = input ->
                 V2.addTask now st = st /\ V2.tasks (V2.addTask now st) = V2.tasks st)
  /\ forallb isWhiteSpace input = true
  /\ (forall s, forallb isWhiteSpace s = true -> trim s = []).
Proof.
  intros H. repeat split.
  - intros st <-. unfold V1.addTask. now rewrite H.
  - subst input. now apply addTask_blank.
  - subst input. now rewrite addTask_blank.
  - now apply trim_nil.
  - intros s. apply trim_nil.
Qed.

Lemma addTask_blank_is_noop_witness :
  trim (u "  " ++ [9; 10; 160; 8232]%N) = []
  /\ V2.addTask 1700000000000
       (V2.mkState [V2.mkTask (u "1") (u "a") false None]
          (u "  " ++ [9; 10; 160; 8232]%N) (Some 5) V2.SortDeadline)
     = V2.mkState [V2.mkTask (u "1") (u "a") false None]
         (u "  " ++ [9; 10; 160; 8232]%N) (Some 5) V2.SortDeadline.
Proof.
  split; [reflexivity|].
  apply (addTask_blank_is_noop (u "  " ++ [9; 10; 160; 8232]%N) 1700000000000);
    reflexivity.
Defined.

(** C4, as amended. Add on an input whose trimmed text is not empty appends
    one task at the end: its text is the trimmed input, its id the decimal
    text of the clock reading, it is not completed and it carries the
    selected due date.  The length grows by one, the tasks already there
    stay as they were, and the input and the date selection are cleared.
    The id is new to the store whenever the text of the reading is not yet
    an id there. *)
Theorem addTask_appends_one (now : Z) (st : V2.State) :
  trim (V2.inputValue st) <> [] ->
  let newTask :=
    V2.mkTask (numberToString now) (trim (V2.inputValue st)) false
      (V2.selectedDate st) in
  V2.tasks (V2.addTask now st) = V2.tasks st ++ [newTask]
  /\ length (V2.tasks (V2.addTask now st)) = S (length (V2.tasks st))
  /\ (forall n t, nth_error (V2.tasks st) n = Some t ->
                  nth_error (V2.tasks (V2.addTask now st)) n = Some t)
  /\ V2.inputValue (V2.addTask now st) = []
  /\ V2.selectedDate (V2.addTask now st) = None
  /\ V2.sortBy (V2.addTask now st) = V2.sortBy st
  /\ (~ In (numberToString now) (map V2.id (V2.tasks st)) ->
      forall t, In t (V2.tasks st) -> V2.id t <> V2.id newTask).
Proof.
  intros H newTask. rewrite addTask_nonblank by assumption. simpl.
  repeat split.
  - rewrite length_app. simpl. lia.
  - intros n t Hn. rewrite nth_error_app1; [assumption|].
    apply nth_error_Some. congruence.
  - intros Hfresh t Ht E. apply Hfresh. rewrite <- E. now apply in_map.
Qed.

Lemma addTask_appends_one_witness :
  V2.tasks (V2.addTask 1700000000000
              (V2.mkState [V2.mkTask (u "1") (u "a") true None]
                 (u " Buy milk ") None V2.SortDeadline))
  = [V2.mkTask (u "1") (u "a") true None;
     V2.mkTask (u "1700000000000") (u "Buy milk") false None].
Proof.
  refine (proj1 (addTask_appends_one 1700000000000
                   (V2.mkState [V2.mkTask (u "1") (u "a") true None]
                      (u " Buy milk ") None V2.SortDeadline) _)).
  discriminate.
Defined.

(** C4 as stated fails: the id of the new task is the clock reading and
    nothing else, so an Add at a reading whose text is already an id in the
    store gives the new task that same id. *)
Lemma addTask_id_can_repeat :
  let st := V2.mkState [V2.mkTask (u "1700000000000") (u "a") false None]
              (u "b") None V2.SortDeadline in
  trim (V2.inputValue st) <> []
  /\ V2.tasks (V2.addTask 1700000000000 st)
     = [V2.mkTask (u "1700000000000") (u "a") false None;
        V2.mkTask (u "1700000000000") (u "b") false None]
  /\ In (u "1700000000000") (map V2.id (V2.tasks st)).
Proof.
  simpl. split; [discriminate|]. split; [reflexivity|]. left. reflexivity.
Qed.

(** C5. Toggling an id twice gives back the state; one toggle keeps the
    length and the order, negates [completed] in the tasks of that id and
    in nothing else, and changes no task of another id; toggling an id that
    no task has changes nothing. *)
Theorem toggleComplete_twice (i : JSString) (st : V2.State) :
  V2.toggleComplete i (V2.toggleComplete i st) = st
  /\ length (V2.tasks (V2.toggleComplete i st)) = length (V2.tasks st)
  /\ (forall n t, nth_error (V2.tasks st) n = Some t ->
        exists t', nth_error (V2.tasks (V2.toggleComplete i st)) n = Some t'
          /\ V2.id t' = V2.id t /\ V2.text t' = V2.text t
          /\ V2.dueDate t' = V2.dueDate t
          /\ (V2.id t = i -> V2.completed t' = negb (V2.completed t))
          /\ (V2.id t <> i -> t' = t))
  /\ (~ In i (map V2.id (V2.tasks st)) -> V2.toggleComplete i st = st).
Proof.
  repeat split.
  - unfold V2.toggleComplete. simpl. rewrite toggleTasks_twice. now destruct st.
  - simpl. unfold V2.toggleTasks. apply length_map.
  - intros n t Hn. simpl. unfold V2.toggleTasks.
    rewrite nth_error_map, Hn. simpl.
    eexists. split; [reflexivity|].
    destruct (unitsEqb (V2.id t) i) eqn:E; simpl; repeat split; auto.
    + intros Hne. apply unitsEqb_eq in E. contradiction.
    + intros He. apply unitsEqb_neq in E. contradiction.
  - intros H. unfold V2.toggleComplete. rewrite toggleTasks_absent by assumption.
    now destruct st.
Qed.

(** C6, as amended. In every store: deleting an id that no task has
    changes nothing; after a delete no task of that id is left; and the
    tasks left are those of another id, with their values, in their order
    (the other fields of the state stay).  In a store whose ids are
    pairwise distinct, deleting an id that a task has takes that one task
    out, and the length drops by exactly one. *)
Theorem deleteTask_removes (i : JSString) (st : V2.State) :
  (~ In i (map V2.id (V2.tasks st)) -> V2.deleteTask i st = st)
  /\ ~ In i (map V2.id (V2.tasks (V2.deleteTask i st)))
  /\ V2.deleteTask i st
     = V2.mkState (filter (fun t => negb (unitsEqb (V2.id t) i)) (V2.tasks st))
         (V2.inputValue st) (V2.selectedDate st) (V2.sortBy st)
  /\ (NoDup (map V2.id (V2.tasks st)) ->
      In i (map V2.id (V2.tasks st)) ->
      S (length (V2.tasks (V2.deleteTask i st))) = length (V2.tasks st)
      /\ exists l1 t l2,
           V2.tasks st = l1 ++ t :: l2 /\ V2.id t = i
           /\ V2.tasks (V2.deleteTask i st) = l1 ++ l2).
Proof.
  split; [|split; [|split; [|split]]].
  - intros H. unfold V2.deleteTask. rewrite deleteTasks_absent by assumption.
    now destruct st.
  - apply deleteTasks_gone.
  - reflexivity.
  - destruct (deleteTasks_unique i _ H H0) as (l1 & t & l2 & E & _ & Hd).
    simpl. rewrite Hd, E, !length_app. simpl. lia.
  - destruct (deleteTasks_unique i _ H H0) as (l1 & t & l2 & E & Hi & Hd).
    exists l1, t, l2. auto.
Qed.

Lemma deleteTask_removes_witness :
  S (length (V2.tasks (V2.deleteTask (u "2")
              (V2.mkState [V2.mkTask (u "1") (u "a") false None;
                           V2.mkTask (u "2") (u "b") true (Some 7);
                           V2.mkTask (u "3") (u "c") false None]
                 [] None V2.SortNone))))
  = 3%nat.
Proof.
  refine (proj1 (proj2 (proj2 (proj2 (deleteTask_removes (u "2")
            (V2.mkState [V2.mkTask (u "1") (u "a") false None;
                         V2.mkTask (u "2") (u "b") true (Some 7);
                         V2.mkTask (u "3") (u "c") false None]
               [] None V2.SortNone)))) _ _)).
  - simpl. repeat constructor; simpl; intuition discriminate.
  - simpl. right. left. reflexivity.
Defined.

(** C6 as stated fails on a store in which two tasks share an id (two Adds
    at one clock reading): deleting that id takes both out, and the length
    drops by two. *)
Lemma deleteTask_can_remove_two :
  let st := V2.run [ASetInput (u "a"); AAdd 1700000000000;
                    ASetInput (u "b"); AAdd 1700000000000] V2.initialState in
  In (u "1700000000000") (map V2.id (V2.tasks st))
  /\ length (V2.tasks st) = 2%nat
  /\ length (V2.tasks (V2.deleteTask (u "1700000000000") st)) = 0%nat.
Proof. simpl. split; [left; reflexivity|]. split; reflexivity. Qed.

(** C9, as amended. Toggle and delete keep the ids of a store pairwise
    distinct, and so does an Add whose clock reading is, as a decimal text,
    no id of the store yet.  Hence a run that starts from distinct ids and
    whose Adds all read such a clock ends with distinct ids, in both
    versions; from the empty store it is enough that the clock readings of
    the Adds increase strictly. *)
Theorem ids_stay_distinct (acts : list Action) (st : V2.State) :
  NoDup (map V2.id (V2.tasks st)) ->
  (freshClocks st acts ->
   NoDup (map V2.id (V2.tasks (V2.run acts st)))
   /\ NoDup (map V1.id (V1.tasks (V1.run acts (forgetDates st)))))
  /\ (forall i, NoDup (map V2.id (V2.tasks (V2.toggleComplete i st)))
                /\ NoDup (map V2.id (V2.tasks (V2.deleteTask i st))))
  /\ (forall now, ~ In (numberToString now) (map V2.id (V2.tasks st)) ->
                  NoDup (map V2.id (V2.tasks (V2.addTask now st))))
  /\ (StronglySorted Z.lt (addClocks acts) ->
      NoDup (map V2.id (V2.tasks (V2.run acts V2.initialState)))).
Proof.
  intros ND. repeat split.
  - now apply run_ids_distinct.
  - rewrite run_forgetDates. simpl. rewrite forgetDate_ids.
    now apply run_ids_distinct.
  - now apply (step_ids_distinct st (AToggle i)).
  - now apply (step_ids_distinct st (ADelete i)).
  - intros now Hfresh. apply (step_ids_distinct st (AAdd now)); auto.
  - intros Hs. apply run_ids_distinct; [constructor|].
    destruct (addClocks acts) as [|c0 cs] eqn:E.
    + apply (increasing_clocks_fresh acts _ 0); rewrite ?E; auto.
      intros i [].
    + apply (increasing_clocks_fresh acts _ c0); rewrite ?E; auto.
      * intros i [].
      * inversion Hs as [|? ? _ Hlt]; subst. constructor; [lia|].
        rewrite Forall_forall in *. intros c Hc. specialize (Hlt c Hc). lia.
Qed.

Lemma ids_stay_distinct_witness :
  NoDup (map V2.id (V2.tasks (V2.run
    [ASetInput (u "a"); AAdd 1700000000000; ASetInput (u "b");
     ASelectDate (Some 1700086400000); AAdd 1700000000001;
     AToggle (u "1700000000000"); ADelete (u "1700000000001")]
    V2.initialState))).
Proof.
  refine (proj1 (proj1 (ids_stay_distinct
    [ASetInput (u "a"); AAdd 1700000000000; ASetInput (u "b");
     ASelectDate (Some 1700086400000); AAdd 1700000000001;
     AToggle (u "1700000000000"); ADelete (u "1700000000001")]
    V2.initialState _) _)).
  - simpl. constructor.
  - simpl. repeat split; intros _; simpl; intuition discriminate.
Defined.

(** C9 as stated fails: an id is the clock reading of its Add, so two Adds
    at one reading put two tasks of one id into a store that was empty. *)
Lemma ids_can_repeat :
  let acts := [ASetInput (u "a"); AAdd 1700000000000;
               ASetInput (u "b"); AAdd 1700000000000] in
  NoDup (map V2.id (V2.tasks V2.initialState))
  /\ map V2.id (V2.tasks (V2.run acts V2.initialState))
     = [u "1700000000000"; u "1700000000000"]
  /\ ~ NoDup (map V2.id (V2.tasks (V2.run acts V2.initialState)))
  /\ ~ NoDup (map V1.id (V1.tasks (V1.run acts V1.initialState))).
Proof.
  simpl. split; [constructor|]. split; [reflexivity|].
  split; intros H; inversion H as [|? ? Hn _]; apply Hn; left; reflexivity.
Qed.

(** C10. On every run of actions the task list of version 1 is the task
    list of version 2 with the due dates dropped, task by task in the same
    order, and the pending input is the same; in particular from the two
    initial states. *)
Theorem versions_agree (acts : list Action) (st : V2.State) :
  V1.tasks (V1.run acts (forgetDates st))
  = map forgetDate (V2.tasks (V2.run acts st))
  /\ V1.inputValue (V1.run acts (forgetDates st))
     = V2.inputValue (V2.run acts st)
  /\ V1.run acts V1.initialState = forgetDates (V2.run acts V2.initialState).
Proof.
  rewrite run_forgetDates. repeat split.
  apply (run_forgetDates acts V2.initialState).
Qed.

(** ** Sorting *)

Section StableSort.
Context {A : Type} (comparefn : A -> A -> Z) (cmp : A -> A -> comparison).

(** The comparator is consistent: its sign is a three-way comparison that
    is antisymmetric and transitive. *)
Hypothesis comparefn_sign : forall a b, (comparefn a b ?= 0) = cmp a b.
Hypothesis cmp_antisym : forall a b, cmp b a = CompOpp (cmp a b).
Hypothesis cmp_trans :
  forall a b c, notAfter cmp a b -> notAfter cmp b c -> notAfter cmp a c.

Lemma cmp_refl (a : A) : cmp a a = Eq.
Proof. pose proof (cmp_antisym a a) as H. destruct (cmp a a); simpl in H; congruence. Qed.

Lemma tiedWith_refl (a : A) : tiedWith cmp a a = true.
Proof. unfold tiedWith. now rewrite cmp_refl. Qed.

Lemma comparefn_le (a b : A) : (comparefn a b <=? 0) = true <-> notAfter cmp a b.
Proof.
  unfold notAfter. rewrite <- comparefn_sign, Z.leb_le. reflexivity.
Qed.

Lemma comparefn_gt (a b : A) : (comparefn a b <=? 0) = false -> cmp a b = Gt.
Proof.
  rewrite <- comparefn_sign, Z.leb_gt. intros H. now apply Z.compare_gt_iff.
Qed.

Lemma tied_trans (a b c : A) : cmp a b = Eq -> cmp b c = Eq -> cmp a c = Eq.
Proof.
  intros Hab Hbc.
  assert (Hac : notAfter cmp a c)
    by (apply (cmp_trans a b c); unfold notAfter; congruence).
  assert (Hca : notAfter cmp c a).
  { apply (cmp_trans c b a); unfold notAfter;
      rewrite cmp_antisym; [rewrite Hbc|rewrite Hab]; discriminate. }
  unfold notAfter in *. rewrite (cmp_antisym a c) in Hca.
  destruct (cmp a c); simpl in *; congruence.
Qed.

Lemma sortInsert_perm (x : A) (l : list A) :
  Permutation (x :: l) (sortInsert comparefn x l).
Proof.
  induction l as [|y l IH]; simpl; [reflexivity|].
  destruct (comparefn x y <=? 0); [reflexivity|].
  rewrite perm_swap. now constructor.
Qed.

Lemma arraySort_perm (l : list A) : Permutation l (arraySort comparefn l).
Proof.
  induction l as [|x l IH]; simpl; [constructor|].
  rewrite <- sortInsert_perm. now constructor.
Qed.

Lemma sortInsert_sorted (x : A) (l : list A) :
  StronglySorted (notAfter cmp) l ->
  StronglySorted (notAfter cmp) (sortInsert comparefn x l).
Proof.
  induction 1 as [|y l Hs IH Hy]; simpl; [repeat constructor|].
  destruct (comparefn x y <=? 0) eqn:E.
  - apply comparefn_le in E. constructor; [now constructor|].
    constructor; [assumption|].
    rewrite Forall_forall in *. intros z Hz. apply (cmp_trans x y z); auto.
  - apply comparefn_gt in E. constructor; [assumption|].
    rewrite Forall_forall in *. intros z Hz.
    apply (Permutation_in _ (Permutation_sym (sortInsert_perm x l))) in Hz.
    destruct Hz as [<-|Hz]; [|now apply Hy].
    unfold notAfter. rewrite cmp_antisym, E. discriminate.
Qed.

Lemma arraySort_sorted (l : list A) :
  StronglySorted (notAfter cmp) (arraySort comparefn l).
Proof.
  induction l as [|x l IH]; simpl; [constructor|]. now apply sortInsert_sorted.
Qed.

(** Insertion moves [x] past strictly smaller elements only, so it leaves
    every class of tied elements in its order. *)
Lemma sortInsert_stable (z x : A) (l : list A) :
  filter (tiedWith cmp z) (sortInsert comparefn x l)
  = filter (tiedWith cmp z) (x :: l).
Proof.
  induction l as [|y l IH]; [reflexivity|].
  cbn [sortInsert]. destruct (comparefn x y <=? 0) eqn:E; [reflexivity|].
  apply comparefn_gt in E.
  cbn [filter] in *. rewrite IH.
  destruct (tiedWith cmp z y) eqn:Ty, (tiedWith cmp z x) eqn:Tx; try reflexivity.
  exfalso. unfold tiedWith in Ty, Tx.
  destruct (cmp z y) eqn:Hy; try discriminate.
  destruct (cmp z x) eqn:Hx; try discriminate.
  assert (Hxz : cmp x z = Eq) by (rewrite cmp_antisym, Hx; reflexivity).
  pose proof (tied_trans x z y Hxz Hy). congruence.
Qed.

Lemma arraySort_stable (z : A) (l : list A) :
  filter (tiedWith cmp z) (arraySort comparefn l) = filter (tiedWith cmp z) l.
Proof.
  induction l as [|x l IH]; [reflexivity|].
  cbn [arraySort]. rewrite sortInsert_stable. cbn [filter]. now rewrite IH.
Qed.

Lemma arraySort_StableSortOf (l : list A) :
  StableSortOf cmp l (arraySort comparefn l).
Proof.
  split; [apply arraySort_perm|apply arraySort_sorted|intros; apply arraySort_stable].
Qed.

(** Two sorted lists with the same classes of tied elements, each class
    in the same order, are one list. *)
Lemma sorted_same_classes (l1 l2 : list A) :
  StronglySorted (notAfter cmp) l1 -> StronglySorted (notAfter cmp) l2 ->
  (forall x, filter (tiedWith cmp x) l1 = filter (tiedWith cmp x) l2) ->
  l1 = l2.
Proof.
  revert l2; induction l1 as [|a t1 IH]; intros [|b t2] S1 S2 H.
  - reflexivity.
  - specialize (H b). cbn [filter] in H. rewrite tiedWith_refl in H. discriminate.
  - specialize (H a). cbn [filter] in H. rewrite tiedWith_refl in H. discriminate.
  - inversion S1 as [|? ? S1' F1]; subst. inversion S2 as [|? ? S2' F2]; subst.
    rewrite Forall_forall in F1, F2.
    assert (Tab : cmp a b = Eq).
    { assert (Hab : notAfter cmp a b).
      { pose proof (H b) as Hb. cbn [filter] in Hb.
        rewrite (tiedWith_refl b) in Hb.
        assert (Hin : In b (filter (tiedWith cmp b) (b :: t2)))
          by (cbn [filter]; rewrite tiedWith_refl; now left).
        cbn [filter] in Hin. rewrite (tiedWith_refl b), <- Hb in Hin.
        destruct (tiedWith cmp b a) eqn:T.
        - unfold tiedWith in T. unfold notAfter. rewrite cmp_antisym.
          destruct (cmp b a); simpl; congruence.
        - apply filter_In in Hin as [Hin _]. now apply F1. }
      assert (Hba : notAfter cmp b a).
      { pose proof (H a) as Ha. cbn [filter] in Ha.
        rewrite (tiedWith_refl a) in Ha.
        assert (Hin : In a (a :: filter (tiedWith cmp a) t1)) by now left.
        rewrite Ha in Hin.
        destruct (tiedWith cmp a b) eqn:T.
        - unfold tiedWith in T. unfold notAfter. rewrite cmp_antisym.
          destruct (cmp a b); simpl; congruence.
        - apply filter_In in Hin as [Hin _]. now apply F2. }
      unfold notAfter in *. rewrite (cmp_antisym a b) in Hba.
      destruct (cmp a b); simpl in *; congruence. }
    assert (a = b).
    { specialize (H a). cbn [filter] in H. rewrite tiedWith_refl in H.
      unfold tiedWith at 2 in H. rewrite Tab in H. congruence. }
    subst b. f_equal. apply IH; auto.
    intros x. specialize (H x). cbn [filter] in H.
    destruct (tiedWith cmp x a); congruence.
Qed.

(** The stable sort of a list is unique, so any conforming [sort] returns
    what [arraySort] computes. *)
Lemma stable_sort_unique (l l' : list A) :
  StableSortOf cmp l l' -> l' = arraySort comparefn l.
Proof.
  intros [_ Hs Hst]. apply sorted_same_classes; auto using arraySort_sorted.
  intros x. now rewrite Hst, arraySort_stable.
Qed.
End StableSort.

(** The comparator of [getSortedTasks] decides the ordering of the
    specification: its sign is [deadlineOrder]. *)
Lemma compareTasks_sign (a b : V2.Task) :
  (V2.compareTasks a b ?= 0) = V2.deadlineOrder a b.
Proof.
  unfold V2.compareTasks, V2.deadlineOrder.
  destruct (V2.completed a), (V2.completed b); simpl; try reflexivity;
    destruct (V2.dueDate a) as [da|], (V2.dueDate b) as [db|]; try reflexivity;
    destruct (Z.compare_spec da db) as [E|E|E];
    [apply Z.compare_eq_iff|apply Z.compare_lt_iff|apply Z.compare_gt_iff
    |apply Z.compare_eq_iff|apply Z.compare_lt_iff|apply Z.compare_gt_iff]; lia.
Qed.

Lemma deadlineOrder_antisym (a b : V2.Task) :
  V2.deadlineOrder b a = CompOpp (V2.deadlineOrder a b).
Proof.
  unfold V2.deadlineOrder.
  destruct (V2.completed a), (V2.completed b); simpl; try reflexivity;
    destruct (V2.dueDate a) as [da|], (V2.dueDate b) as [db|]; try reflexivity;
    apply Z.compare_antisym.
Qed.

Lemma deadlineOrder_trans (a b c : V2.Task) :
  notAfter V2.deadlineOrder a b -> notAfter V2.deadlineOrder b c ->
  notAfter V2.deadlineOrder a c.
Proof.
  unfold notAfter, V2.deadlineOrder.
  destruct (V2.completed a), (V2.completed b), (V2.completed c);
    try congruence;
    destruct (V2.dueDate a) as [da|], (V2.dueDate b) as [db|],
             (V2.dueDate c) as [dc|]; try congruence;
    rewrite !Z.compare_gt_iff; lia.
Qed.

Lemma StronglySorted_suffix {A} (R : A -> A -> Prop) (l1 l2 : list A) :
  StronglySorted R (l1 ++ l2) -> StronglySorted R l2.
Proof.
  induction l1 as [|x l1 IH]; simpl; [auto|].
  intros H. inversion H; subst. auto.
Qed.

(** ** The claims on the derived view *)

(** C1. With the sort mode on the deadline, [getSortedTasks] returns the
    stable sort of the task list by the ordering of the specification
    ([deadlineOrder]: incomplete before completed, then dated before
    undated, then by ascending due date): a permutation of the tasks, in
    non-descending order, in which tasks that tie stand in their order of
    insertion; and it is the only such list.  Adding A without a date, B due
    yesterday and C due tomorrow to the empty store gives the view B, C, A. *)
Theorem getSortedTasks_deadline (st : V2.State) :
  V2.sortBy st = V2.SortDeadline ->
  StableSortOf V2.deadlineOrder (V2.tasks st) (V2.getSortedTasks st)
  /\ (forall l', StableSortOf V2.deadlineOrder (V2.tasks st) l' ->
                 l' = V2.getSortedTasks st)
  /\ (forall a b l1 l2 l3,
         V2.getSortedTasks st = l1 ++ a :: l2 ++ b :: l3 ->
         V2.deadlineOrder a b = Lt
         \/ (V2.deadlineOrder a b = Eq
             /\ filter (tiedWith V2.deadlineOrder a) (V2.tasks st)
                = filter (tiedWith V2.deadlineOrder a) l1
                    ++ a :: filter (tiedWith V2.deadlineOrder a) l2
                    ++ b :: filter (tiedWith V2.deadlineOrder a) l3))
  /\ (forall ta tb tc nA nB nC yesterday tomorrow,
         trim ta <> [] -> trim tb <> [] -> trim tc <> [] ->
         yesterday < tomorrow ->
         let added :=
           V2.run [ASetInput ta; AAdd nA;
                   ASetInput tb; ASelectDate (Some yesterday); AAdd nB;
                   ASetInput tc; ASelectDate (Some tomorrow); AAdd nC]
             V2.initialState in
         let A := V2.mkTask (numberToString nA) (trim ta) false None in
         let B := V2.mkTask (numberToString nB) (trim tb) false (Some yesterday) in
         let C := V2.mkTask (numberToString nC) (trim tc) false (Some tomorrow) in
         V2.tasks added = [A; B; C] /\ V2.getSortedTasks added = [B; C; A]).
Proof.
  intros Hmode.
  assert (Hsort : StableSortOf V2.deadlineOrder (V2.tasks st) (V2.getSortedTasks st)).
  { unfold V2.getSortedTasks. rewrite Hmode.
    apply arraySort_StableSortOf.
    - exact compareTasks_sign.
    - exact deadlineOrder_antisym.
    - exact deadlineOrder_trans. }
  split; [exact Hsort|]. split; [|split].
  - intros l' H. unfold V2.getSortedTasks. rewrite Hmode.
    apply (stable_sort_unique _ V2.deadlineOrder);
      [exact compareTasks_sign|exact deadlineOrder_antisym
      |exact deadlineOrder_trans|exact H].
  - intros a b l1 l2 l3 E. destruct Hsort as [_ Hs Hst].
    rewrite E in Hs, Hst.
    assert (Hab : notAfter V2.deadlineOrder a b).
    { apply StronglySorted_suffix in Hs.
      inversion Hs as [|? ? _ F]; subst. rewrite Forall_forall in F.
      apply F. rewrite in_app_iff. right. now left. }
    unfold notAfter in Hab.
    destruct (V2.deadlineOrder a b) eqn:O; [right|left; reflexivity|congruence].
    split; [reflexivity|]. rewrite <- Hst.
    rewrite filter_app. cbn [filter].
    rewrite (tiedWith_refl _ deadlineOrder_antisym), filter_app. cbn [filter].
    unfold tiedWith at 3. now rewrite O.
  - intros ta tb tc nA nB nC y t Ha Hb Hc Hlt. cbn zeta.
    unfold V2.run. cbn [fold_left V2.step].
    unfold V2.getSortedTasks.
    rewrite !addTask_nonblank; cbn; try assumption.
    split; [reflexivity|].
    unfold V2.compareTasks. cbn.
    destruct (y - t <=? 0) eqn:E; [reflexivity|].
    apply Z.leb_gt in E. lia.
Qed.

Lemma getSortedTasks_deadline_witness :
  V2.sortBy exampleStore = V2.SortDeadline
  /\ StableSortOf V2.deadlineOrder (V2.tasks exampleStore)
       [V2.mkTask (u "4") (u "first of two") false (Some 7);
        V2.mkTask (u "5") (u "second of two") false (Some 7);
        V2.mkTask (u "2") (u "later") false (Some 9);
        V2.mkTask (u "3") (u "undated") false None;
        V2.mkTask (u "1") (u "done") true (Some 5)].
Proof.
  split; [reflexivity|].
  exact (proj1 (getSortedTasks_deadline exampleStore eq_refl)).
Defined.

(** ** Local days *)

Lemma TimeClip_Some (t s : Z) : TimeClip t = Some s <-> s = t /\ validTime t.
Proof.
  unfold TimeClip, validTimeb, validTime.
  destruct (-8640000000000000 <=? t) eqn:A; destruct (t <=? 8640000000000000) eqn:B;
    cbn [andb]; split;
    try (intros E; injection E as <-; split; [reflexivity|lia]);
    try discriminate; intros [-> H]; try reflexivity; lia.
Qed.

(** The start of the day of a date is the midnight that starts its local
    calendar day, clipped to the range of dates; it depends on the date
    through its calendar day alone. *)
Lemma startOfDay_localMidnight (tz : TimeZone) (t : Z) :
  V2.startOfDay tz t = TimeClip (localMidnight tz (V2.calendarDay tz t)).
Proof.
  unfold V2.startOfDay, setHours, localMidnight, V2.calendarDay, MakeDate, MakeTime.
  cbn zeta. f_equal. f_equal. lia.
Qed.

Lemma startOfDay_Some (tz : TimeZone) (t : Z) :
  V2.startOfDay tz t <> None ->
  V2.startOfDay tz t = Some (localMidnight tz (V2.calendarDay tz t)).
Proof.
  rewrite startOfDay_localMidnight. unfold TimeClip.
  now destruct (validTimeb _).
Qed.

(** Where the offsets lie within a day of one another, later days start
    later. *)
Lemma localMidnight_lt (tz : TimeZone) (j k : Z) :
  offsetsWithinADay tz ->
  (localMidnight tz j < localMidnight tz k <-> j < k).
Proof.
  intros W. unfold localMidnight, UTC.
  assert (Inc : forall a b, a < b ->
            a * msPerDay - offsetOfLocal tz (a * msPerDay)
            < b * msPerDay - offsetOfLocal tz (b * msPerDay)).
  { intros a b Hab.
    pose proof (W (b * msPerDay) (a * msPerDay)) as Hw.
    unfold msPerDay in *. lia. }
  split.
  - intros H. destruct (Z_lt_le_dec j k) as [|Hkj]; [assumption|].
    destruct (Z.eq_dec k j) as [->|Hne]; [lia|].
    pose proof (Inc k j ltac:(lia)). lia.
  - apply Inc.
Qed.

Lemma localMidnight_le (tz : TimeZone) (j k : Z) :
  offsetsWithinADay tz -> j <= k -> localMidnight tz j <= localMidnight tz k.
Proof.
  intros W H. destruct (Z.eq_dec j k) as [->|Hne]; [lia|].
  apply Z.lt_le_incl, localMidnight_lt; [assumption|lia].
Qed.

(** The overdue flag of a dated, incomplete task, read on the calendar. *)
Lemma isBefore_days (tz : TimeZone) (due now : Z) :
  offsetsWithinADay tz ->
  V2.startOfDay tz due <> None ->
  V2.startOfDay tz now <> None ->
  (V2.isBefore (V2.startOfDay tz due) (V2.startOfDay tz now) = true
   <-> V2.calendarDay tz due < V2.calendarDay tz now).
Proof.
  intros W Hd Hn.
  rewrite (startOfDay_Some _ _ Hd), (startOfDay_Some _ _ Hn).
  cbn [V2.isBefore]. rewrite Z.ltb_lt. now apply localMidnight_lt.
Qed.

(** A zone at a fixed offset is regular. *)
Lemma fixedZone_regular (o : Z) : RegularZone (fixedZone o).
Proof.
  split.
  - intros x y. cbn. unfold msPerDay. lia.
  - intros a b H. unfold V2.calendarDay, LocalTime, Day, msPerDay. cbn.
    apply Z.div_le_mono; lia.
  - intros t. unfold localMidnight, UTC, V2.calendarDay, LocalTime, Day, msPerDay.
    cbn. split.
    + pose proof (Z.div_mod (t + o) 86400000).
      pose proof (Z.mod_pos_bound (t + o) 86400000). lia.
    + replace (_ - o + o) with ((t + o) / 86400000 * 86400000) by lia.
      now rewrite Z.div_mul.
Qed.

(** So is Eastern time across the end of daylight saving time. *)
Lemma easternFall2023_within_a_day : offsetsWithinADay easternFall2023.
Proof.
  intros x y. cbn. unfold msPerDay.
  destruct (x <? _); destruct (y <? _); lia.
Qed.

Lemma easternFall2023_regular : RegularZone easternFall2023.
Proof.
  split.
  - exact easternFall2023_within_a_day.
  - intros a b H. unfold V2.calendarDay, LocalTime, Day, msPerDay. cbn.
    destruct (a <? 1699164000000) eqn:A; destruct (b <? 1699164000000) eqn:B;
      try apply Z.ltb_lt in A; try apply Z.ltb_ge in A;
      try apply Z.ltb_lt in B; try apply Z.ltb_ge in B.
    + apply Z.div_le_mono; lia.
    + assert ((a + -14400000) / 86400000 < 19667)
        by (apply Z.div_lt_upper_bound; lia).
      assert (19666 <= (b + -18000000) / 86400000)
        by (apply Z.div_le_lower_bound; lia).
      lia.
    + lia.
    + apply Z.div_le_mono; lia.
  - intros t. unfold localMidnight, UTC, V2.calendarDay, LocalTime, Day, msPerDay.
    cbn.
    pose proof (Z.div_mod (t + (if t <? 1699164000000 then -14400000 else -18000000))
                  86400000 ltac:(lia)) as Hdm.
    pose proof (Z.mod_pos_bound
                  (t + (if t <? 1699164000000 then -14400000 else -18000000))
                  86400000 eq_refl) as Hb.
    set (k := (t + (if t <? 1699164000000 then -14400000 else -18000000)) / 86400000) in *.
    set (r := (t + (if t <? 1699164000000 then -14400000 else -18000000)) mod 86400000) in *.
    destruct (t <? 1699164000000) eqn:A;
      [apply Z.ltb_lt in A|apply Z.ltb_ge in A];
      (destruct (k * 86400000 <? 1699149600000) eqn:B;
       [apply Z.ltb_lt in B|apply Z.ltb_ge in B]).
    + split; [lia|].
      destruct (k * 86400000 - -14400000 <? 1699164000000) eqn:C;
        [|apply Z.ltb_ge in C; lia].
      replace (_ - -14400000 + -14400000) with (k * 86400000) by lia.
      apply Z.div_mul; lia.
    + lia.
    + split; [lia|].
      destruct (k * 86400000 - -14400000 <? 1699164000000) eqn:C;
        [|apply Z.ltb_ge in C; lia].
      replace (_ - -14400000 + -14400000) with (k * 86400000) by lia.
      apply Z.div_mul; lia.
    + split; [lia|].
      destruct (k * 86400000 - -18000000 <? 1699164000000) eqn:C;
        [apply Z.ltb_lt in C; lia|].
      replace (_ - -18000000 + -18000000) with (k * 86400000) by lia.
      apply Z.div_mul; lia.
Qed.




(** ** Dates *)

Lemma digitUnit_isDigit (d : Z) : 0 <= d <= 9 -> isDigit (digitUnit d) = true.
Proof.
  intros H. unfold isDigit, digitUnit.
  apply andb_true_iff. split; apply N.leb_le; lia.
Qed.

Lemma digitUnit_value (d : Z) : 0 <= d <= 9 -> Z.of_N (digitUnit d) - 48 = d.
Proof. intros H. unfold digitUnit. lia. Qed.

Lemma readDigits_cons (w : nat) (acc : Z) (c : N) (r : JSString) :
  readDigits (S w) acc (c :: r)
  = if isDigit c then readDigits w (acc * 10 + (Z.of_N c - 48)) r else None.
Proof. reflexivity. Qed.

(** Reading one digit more is reading the digits before it first. *)
Lemma readDigits_last (w : nat) (acc : Z) (s : JSString) :
  readDigits (S w) acc s
  = match readDigits w acc s with
    | Some (a, c :: r) =>
        if isDigit c then Some (a * 10 + (Z.of_N c - 48), r) else None
    | _ => None
    end.
Proof.
  revert acc s; induction w as [|w IH]; intros acc s.
  - simpl. destruct s as [|c r]; [reflexivity|]. now destruct (isDigit c).
  - destruct s as [|c r]; [reflexivity|].
    rewrite (readDigits_cons (S w)), (readDigits_cons w).
    destruct (isDigit c); [|reflexivity]. apply IH.
Qed.

Lemma readDigits_padDigits (w : nat) (v acc : Z) (rest : JSString) :
  0 <= v < 10 ^ Z.of_nat w ->
  readDigits w acc (padDigits w v ++ rest) = Some (acc * 10 ^ Z.of_nat w + v, rest).
Proof.
  revert v rest; induction w as [|w IH]; intros v rest H.
  - simpl in *. f_equal. f_equal. lia.
  - rewrite readDigits_last. cbn [padDigits]. rewrite <- app_assoc.
    rewrite Nat2Z.inj_succ, Z.pow_succ_r in * by lia.
    rewrite IH by (split; [apply Z.div_pos; lia | apply Z.div_lt_upper_bound; lia]).
    cbn [app].
    assert (Hd : 0 <= v mod 10 <= 9) by (pose proof (Z.mod_pos_bound v 10); lia).
    rewrite (digitUnit_isDigit _ Hd), (digitUnit_value _ Hd).
    f_equal. f_equal. pose proof (Z.div_mod v 10). lia.
Qed.

Lemma padDigits_head (w : nat) (v : Z) :
  0 <= v -> exists c r, padDigits (S w) v = c :: r /\ isDigit c = true.
Proof.
  revert v; induction w as [|w IH]; intros v Hv.
  - exists (digitUnit (v mod 10)), []. split; [reflexivity|].
    apply digitUnit_isDigit. pose proof (Z.mod_pos_bound v 10). lia.
  - destruct (IH (v / 10)) as (c & r & E & Hc); [apply Z.div_pos; lia|].
    change (padDigits (S (S w)) v)
      with (padDigits (S w) (v / 10) ++ [digitUnit (v mod 10)]).
    rewrite E. exists c, (r ++ [digitUnit (v mod 10)]). auto.
Qed.

Lemma readYear_yearUnits (y : Z) (rest : JSString) :
  -999999 <= y <= 999999 ->
  readYear (yearUnits y ++ rest) = Some (y, rest).
Proof.
  intros H. unfold yearUnits.
  destruct ((0 <=? y) && (y <=? 9999)) eqn:E.
  - apply andb_true_iff in E as [E1 E2]. apply Z.leb_le in E1, E2.
    destruct (padDigits_head 3 y E1) as (c & r & Ep & Hc).
    unfold readYear. rewrite Ep. cbn [app].
    assert (Hc1 : (c =? 43)%N = false).
    { unfold isDigit in Hc. apply andb_true_iff in Hc as [Hc _].
      apply N.leb_le in Hc. apply N.eqb_neq. lia. }
    assert (Hc2 : (c =? 45)%N = false).
    { unfold isDigit in Hc. apply andb_true_iff in Hc as [Hc _].
      apply N.leb_le in Hc. apply N.eqb_neq. lia. }
    rewrite Hc1, Hc2.
    change (c :: r ++ rest) with ((c :: r) ++ rest). rewrite <- Ep.
    rewrite readDigits_padDigits by (simpl; lia). f_equal; f_equal; lia.
  - cbn [app]. unfold readYear.
    destruct (y <? 0) eqn:Hneg.
    + apply Z.ltb_lt in Hneg.
      change ((45 =? 43)%N) with false. change ((45 =? 45)%N) with true.
      cbv iota. rewrite readDigits_padDigits by (simpl; lia).
      f_equal; f_equal; lia.
    + apply Z.ltb_ge in Hneg. change ((43 =? 43)%N) with true. cbv iota.
      rewrite readDigits_padDigits by (simpl; lia). f_equal; f_equal; lia.
Qed.

Lemma allInRange_spec (p : positive) (base : Z) (f : Z -> bool) :
  allInRange p base f = true ->
  forall k, base <= k < base + Zpos p -> f k = true.
Proof.
  revert base; induction p as [q IH|q IH|]; intros base H k Hk; simpl in H.
  - apply andb_true_iff in H as [H H3]. apply andb_true_iff in H as [H1 H2].
    destruct (Z.eq_dec k base) as [->|Hne]; [assumption|].
    destruct (Z.lt_ge_cases k (base + 1 + Zpos q)).
    + apply (IH _ H2). lia.
    + apply (IH _ H3). lia.
  - apply andb_true_iff in H as [H1 H2].
    destruct (Z.lt_ge_cases k (base + Zpos q)).
    + apply (IH _ H1). lia.
    + apply (IH _ H2). lia.
  - replace k with base by lia. assumption.
Qed.

Lemma era_in_bounds (doe : Z) :
  0 <= doe < 146097 ->
  0 <= eraYear doe <= 399 /\ 0 <= eraDayOfYear doe <= 365.
Proof.
  intros H.
  assert (E : eraInBounds doe = true).
  { apply (allInRange_spec 146097 0 eraInBounds); [vm_compute; reflexivity|lia]. }
  unfold eraInBounds in E.
  repeat (apply andb_true_iff in E as [E ?]).
  rewrite Z.leb_le in *. lia.
Qed.

Lemma civilFromDays_fields (z : Z) :
  let '(y, m, d) := civilFromDays z in
  1 <= m <= 12 /\ 1 <= d <= 31
  /\ (z + 719468) / 146097 * 400 <= y <= (z + 719468) / 146097 * 400 + 400.
Proof.
  unfold civilFromDays. cbn zeta.
  pose proof (Z.mod_pos_bound (z + 719468) 146097 eq_refl) as Hdoe.
  destruct (era_in_bounds _ Hdoe) as [Hy Hd].
  fold (eraYear ((z + 719468) mod 146097)).
  fold (eraDayOfYear ((z + 719468) mod 146097)).
  set (yoe := eraYear _) in *. set (doy := eraDayOfYear _) in *.
  set (mp := (5 * doy + 2) / 153).
  assert (Hmp : 0 <= mp <= 11).
  { unfold mp. split; [apply Z.div_pos; lia|].
    apply Z.lt_succ_r. apply Z.div_lt_upper_bound; lia. }
  assert (Hday : 1 <= doy - (153 * mp + 2) / 5 + 1 <= 31).
  { pose proof (Z.div_mod (5 * doy + 2) 153) as E1.
    pose proof (Z.mod_pos_bound (5 * doy + 2) 153 eq_refl) as B1.
    fold mp in E1.
    pose proof (Z.div_mod (153 * mp + 2) 5) as E2.
    pose proof (Z.mod_pos_bound (153 * mp + 2) 5 eq_refl) as B2. lia. }
  destruct (mp <? 10) eqn:E; [apply Z.ltb_lt in E|apply Z.ltb_ge in E].
  - destruct (mp + 3 <=? 2) eqn:E'; [apply Z.leb_le in E'|apply Z.leb_gt in E']; lia.
  - destruct (mp - 9 <=? 2) eqn:E'; [apply Z.leb_le in E'|apply Z.leb_gt in E']; lia.
Qed.

(** [MakeDay] undoes the split of a day number into year, month and day. *)
Lemma daysFromCivil_civilFromDays (z : Z) :
  let '(y, m, d) := civilFromDays z in daysFromCivil y m d = z.
Proof.
  unfold civilFromDays. cbn zeta.
  pose proof (Z.mod_pos_bound (z + 719468) 146097 eq_refl) as Hdoe.
  destruct (era_in_bounds _ Hdoe) as [Hy Hd].
  fold (eraYear ((z + 719468) mod 146097)).
  fold (eraDayOfYear ((z + 719468) mod 146097)).
  pose proof (eq_refl : eraDayOfYear ((z + 719468) mod 146097) = _) as Edoy.
  unfold eraDayOfYear at 2 in Edoy.
  set (era := (z + 719468) / 146097).
  set (yoe := eraYear _) in *. set (doy := eraDayOfYear _) in *.
  set (mp := (5 * doy + 2) / 153).
  assert (Hmp : 0 <= mp <= 11).
  { unfold mp. split; [apply Z.div_pos; lia|].
    apply Z.lt_succ_r. apply Z.div_lt_upper_bound; lia. }
  set (m := if mp <? 10 then mp + 3 else mp - 9).
  assert (Hm : (if 2 <? m then m - 3 else m + 9) = mp).
  { unfold m. destruct (mp <? 10) eqn:E;
      [apply Z.ltb_lt in E|apply Z.ltb_ge in E].
    - destruct (2 <? mp + 3) eqn:E'; [lia|apply Z.ltb_ge in E'; lia].
    - destruct (2 <? mp - 9) eqn:E'; [apply Z.ltb_lt in E'; lia|lia]. }
  unfold daysFromCivil. cbn zeta. rewrite Hm.
  assert (Hy' : (if m <=? 2 then yoe + era * 400 + (if m <=? 2 then 1 else 0) - 1
                 else yoe + era * 400 + (if m <=? 2 then 1 else 0))
                = yoe + era * 400) by (destruct (m <=? 2); lia).
  rewrite Hy'.
  assert (Hq : (yoe + era * 400) / 400 = era).
  { rewrite Z.div_add by lia. rewrite Z.div_small by lia. lia. }
  assert (Hr : (yoe + era * 400) mod 400 = yoe).
  { rewrite Z.mod_add by lia. apply Z.mod_small. lia. }
  rewrite Hq, Hr.
  pose proof (Z.div_mod (z + 719468) 146097) as Ez. fold era in Ez.
  lia.
Qed.

Lemma MakeTime_fields (w : Z) :
  0 <= w < msPerDay ->
  MakeTime (w / 3600000) (w / 60000 mod 60) (w / 1000 mod 60) (w mod 1000) = w
  /\ 0 <= w / 3600000 < 24.
Proof.
  unfold msPerDay, MakeTime. intros H.
  Z.div_mod_to_equations. lia.
Qed.

(** The fields [toISOString] writes are read back to the time value. *)
Lemma readISOFields_toISOString (t : Z) :
  validTime t -> readISOFields (toISOString t) = Some (t, []).
Proof.
  unfold validTime. intros Ht. unfold toISOString.
  pose proof (civilFromDays_fields (Day t)) as Hf.
  pose proof (daysFromCivil_civilFromDays (Day t)) as Hr.
  destruct (civilFromDays (Day t)) as [[y m] d].
  destruct Hf as (Hm & Hd & Hy).
  assert (Hday : -100000000 <= Day t <= 100000000).
  { unfold Day, msPerDay. Z.div_mod_to_equations. lia. }
  assert (Hyear : -999999 <= y <= 999999).
  { revert Hy. Z.div_mod_to_equations. lia. }
  pose proof (Z.mod_pos_bound t msPerDay eq_refl) as Hw.
  fold (TimeWithinDay t) in Hw.
  destruct (MakeTime_fields _ Hw) as [Htime Hh].
  set (w := TimeWithinDay t) in *.
  assert (B60 : forall x, 0 <= x mod 60 < 10 ^ Z.of_nat 2)
    by (intros x; pose proof (Z.mod_pos_bound x 60 eq_refl); simpl; lia).
  assert (B1000 : 0 <= w mod 1000 < 10 ^ Z.of_nat 3)
    by (pose proof (Z.mod_pos_bound w 1000 eq_refl); simpl; lia).
  unfold readISOFields.
  rewrite readYear_yearUnits by assumption.
  cbn [app expectUnit N.eqb Pos.eqb].
  rewrite readDigits_padDigits by (simpl; lia).
  cbn [app expectUnit N.eqb Pos.eqb].
  rewrite readDigits_padDigits by (simpl; lia).
  cbn [app expectUnit N.eqb Pos.eqb].
  rewrite readDigits_padDigits by (simpl; lia).
  cbn [app expectUnit N.eqb Pos.eqb].
  rewrite readDigits_padDigits by apply B60.
  cbn [app expectUnit N.eqb Pos.eqb].
  rewrite readDigits_padDigits by apply B60.
  cbn [app expectUnit N.eqb Pos.eqb].
  rewrite readDigits_padDigits by apply B1000.
  cbn [app expectUnit N.eqb Pos.eqb].
  rewrite !Z.mul_0_l, !Z.add_0_l, Hr, Htime.
  f_equal. f_equal. unfold MakeDate, Day, w, TimeWithinDay.
  pose proof (Z.div_mod t msPerDay). unfold msPerDay in *. lia.
Qed.

(** [new Date(date.toISOString())] is the date. *)
Lemma parseISO_toISOString (t : Z) :
  validTime t -> parseISO (toISOString t) = Some t.
Proof.
  intros Ht. unfold parseISO. rewrite (readISOFields_toISOString t Ht).
  rewrite unitsEqb_refl, andb_true_r.
  unfold validTime in Ht. unfold validTimeb.
  destruct Ht as [H1 H2]. apply Z.leb_le in H1, H2. now rewrite H1, H2.
Qed.

(** What [parseISO] reads is the text of the date it returns: it reads no
    other text. *)
Lemma parseISO_canonical (s : JSString) (t : Z) :
  parseISO s = Some t -> validTime t /\ toISOString t = s.
Proof.
  unfold parseISO. destruct (readISOFields s) as [[t' [|c r]]|]; try discriminate.
  destruct (validTimeb t' && unitsEqb (toISOString t') s) eqn:E; [|discriminate].
  intros H. injection H as <-. apply andb_true_iff in E as [E1 E2].
  apply unitsEqb_eq in E2. split; [|assumption].
  unfold validTimeb in E1. apply andb_true_iff in E1 as [Ha Hb].
  apply Z.leb_le in Ha, Hb. now split.
Qed.

Lemma toISOString_nonempty (t : Z) : isEmptyString (toISOString t) = false.
Proof.
  unfold toISOString. destruct (civilFromDays (Day t)) as [[y m] d].
  now destruct (yearUnits y).
Qed.

(** ** JSON strings *)

Lemma hexValue_hexUnit (d : N) : (d < 16)%N -> hexValue (hexUnit d) = Some d.
Proof.
  intros H. unfold hexUnit, hexValue.
  destruct (N.ltb_spec d 10).
  - replace ((48 <=? 48 + d)%N) with true by (symmetry; apply N.leb_le; lia).
    replace ((48 + d <=? 57)%N) with true by (symmetry; apply N.leb_le; lia).
    cbn [andb]. f_equal. lia.
  - replace ((48 <=? 87 + d)%N) with true by (symmetry; apply N.leb_le; lia).
    replace ((87 + d <=? 57)%N) with false by (symmetry; apply N.leb_gt; lia).
    replace ((97 <=? 87 + d)%N) with true by (symmetry; apply N.leb_le; lia).
    replace ((87 + d <=? 102)%N) with true by (symmetry; apply N.leb_le; lia).
    cbn [andb]. f_equal. lia.
Qed.

Lemma hex_digits_value_Z (c : Z) :
  0 <= c < 65536 ->
  c / 4096 mod 16 * 4096 + c / 256 mod 16 * 256 + c / 16 mod 16 * 16
  + c mod 16 = c.
Proof.
  intros H.
  assert (E1 : c / 256 = c / 16 / 16) by (rewrite Z.div_div by lia; reflexivity).
  assert (E2 : c / 4096 = c / 16 / 16 / 16)
    by (rewrite !Z.div_div by lia; reflexivity).
  rewrite E2, E1.
  pose proof (Z.div_mod c 16). pose proof (Z.mod_pos_bound c 16).
  pose proof (Z.div_mod (c / 16) 16). pose proof (Z.mod_pos_bound (c / 16) 16).
  pose proof (Z.div_mod (c / 16 / 16) 16).
  pose proof (Z.mod_pos_bound (c / 16 / 16) 16).
  assert (c / 16 / 16 / 16 < 16)
    by (rewrite !Z.div_div by lia; apply Z.div_lt_upper_bound; lia).
  assert (0 <= c / 16 / 16 / 16) by (repeat apply Z.div_pos; lia).
  rewrite (Z.mod_small (c / 16 / 16 / 16)) by lia.
  lia.
Qed.

Lemma hex_digits_value (c : N) :
  (c < 65536)%N ->
  (c / 4096 mod 16 * 4096 + c / 256 mod 16 * 256 + c / 16 mod 16 * 16
   + c mod 16)%N = c.
Proof.
  intros H. pose proof (hex_digits_value_Z (Z.of_N c)) as E.
  apply N2Z.inj.
  rewrite !N2Z.inj_add, !N2Z.inj_mul, !N2Z.inj_mod, !N2Z.inj_div.
  apply E. lia.
Qed.

Lemma parseString_unicodeEscape (c : N) (tail : JSString) :
  (c < 65536)%N ->
  parseString (unicodeEscape c ++ tail)
  = match parseString tail with
    | Some (str, rest) => Some (c :: str, rest)
    | None => None
    end.
Proof.
  intros H. unfold unicodeEscape. cbn [app parseString].
  change ((92 =? 34)%N) with false. change ((92 =? 92)%N) with true.
  change ((117 =? 117)%N) with true. cbv iota.
  assert (B : forall x, (x mod 16 < 16)%N) by (intros; apply N.mod_lt; lia).
  rewrite !hexValue_hexUnit by apply B.
  now rewrite hex_digits_value.
Qed.

Lemma parseString_plain (c : N) (tail : JSString) :
  (c =? 34)%N = false -> (c =? 92)%N = false -> (c <? 32)%N = false ->
  parseString (c :: tail)
  = match parseString tail with
    | Some (str, rest) => Some (c :: str, rest)
    | None => None
    end.
Proof. intros H1 H2 H3. cbn [parseString]. now rewrite H1, H2, H3. Qed.

(** An escaped code unit is read back as itself. *)
Lemma parseString_quoteUnit (c : N) (tail : JSString) :
  parseString (quoteUnit c ++ tail)
  = match parseString tail with
    | Some (str, rest) => Some (c :: str, rest)
    | None => None
    end.
Proof.
  unfold quoteUnit.
  destruct (N.eqb_spec c 8) as [->|H8]; [reflexivity|].
  destruct (N.eqb_spec c 9) as [->|H9]; [reflexivity|].
  destruct (N.eqb_spec c 10) as [->|H10]; [reflexivity|].
  destruct (N.eqb_spec c 12) as [->|H12]; [reflexivity|].
  destruct (N.eqb_spec c 13) as [->|H13]; [reflexivity|].
  destruct (N.eqb_spec c 34) as [->|H34]; [reflexivity|].
  destruct (N.eqb_spec c 92) as [->|H92]; [reflexivity|].
  destruct ((c <? 32)%N || isHighSurrogate c || isLowSurrogate c) eqn:E.
  - apply parseString_unicodeEscape.
    apply orb_true_iff in E as [E|E]; [apply orb_true_iff in E as [E|E]|].
    + apply N.ltb_lt in E. lia.
    + unfold isHighSurrogate in E. apply andb_true_iff in E as [_ E].
      apply N.leb_le in E. lia.
    + unfold isLowSurrogate in E. apply andb_true_iff in E as [_ E].
      apply N.leb_le in E. lia.
  - apply orb_false_iff in E as [E _]. apply orb_false_iff in E as [E _].
    cbn [app]. apply parseString_plain; [now apply N.eqb_neq ..|assumption].
Qed.

Lemma surrogate_plain (c : N) :
  isHighSurrogate c = true \/ isLowSurrogate c = true ->
  (c =? 34)%N = false /\ (c =? 92)%N = false /\ (c <? 32)%N = false.
Proof.
  unfold isHighSurrogate, isLowSurrogate.
  intros [H|H]; apply andb_true_iff in H as [H _]; apply N.leb_le in H;
    repeat split; try (apply N.eqb_neq; lia); apply N.ltb_ge; lia.
Qed.

(** [JSON.parse] reads a quoted string back, up to the closing quote. *)
Lemma parseString_quoteUnits (s rest : JSString) :
  parseString (quoteUnits s ++ 34%N :: rest) = Some (s, rest).
Proof.
  assert (G : forall n s, (length s <= n)%nat ->
                          parseString (quoteUnits s ++ 34%N :: rest) = Some (s, rest)).
  { clear s. induction n as [|n IH]; intros s Hn.
    - destruct s; [reflexivity|simpl in Hn; lia].
    - destruct s as [|c r]; [reflexivity|]. simpl in Hn.
      cbn [quoteUnits]. destruct (isHighSurrogate c) eqn:Hh.
      + destruct r as [|d r'].
        * rewrite parseString_quoteUnit. reflexivity.
        * destruct (isLowSurrogate d) eqn:Hl.
          -- destruct (surrogate_plain c (or_introl Hh)) as (A1 & A2 & A3).
             destruct (surrogate_plain d (or_intror Hl)) as (B1 & B2 & B3).
             cbn [app]. rewrite (parseString_plain c) by assumption.
             rewrite (parseString_plain d) by assumption.
             rewrite IH by (simpl in Hn; lia). reflexivity.
          -- rewrite <- app_assoc, parseString_quoteUnit.
             rewrite IH by lia. reflexivity.
      + rewrite <- app_assoc, parseString_quoteUnit.
        rewrite IH by lia. reflexivity. }
  apply (G (length s)). lia.
Qed.

(** ** The JSON parser and its fuel *)

Lemma valueStep_mono pe pe' pm pm' (s : JSString) :
  (forall x, refinedBy (pe x) (pe' x)) -> (forall x, refinedBy (pm x) (pm' x)) ->
  refinedBy (valueStep pe pm s) (valueStep pe' pm' s).
Proof.
  intros He Hm. unfold valueStep.
  destruct (skipWs s) as [|c r]; [now right|].
  destruct (c =? 123)%N.
  { destruct (skipWs r) as [|c' r']; [now right|].
    destruct (c' =? 125)%N; [now right|].
    destruct (Hm (c' :: r')) as [E|E]; rewrite E; [now left|now right]. }
  destruct (c =? 91)%N; [|now right].
  destruct (skipWs r) as [|c' r']; [now right|].
  destruct (c' =? 93)%N; [now right|].
  destruct (He (c' :: r')) as [E|E]; rewrite E; [now left|now right].
Qed.

Lemma elementsStep_mono pv pv' pe pe' (s : JSString) :
  (forall x, refinedBy (pv x) (pv' x)) -> (forall x, refinedBy (pe x) (pe' x)) ->
  refinedBy (elementsStep pv pe s) (elementsStep pv' pe' s).
Proof.
  intros Hv He. unfold elementsStep.
  destruct (Hv s) as [E|E]; rewrite E; [now left|].
  destruct (pv' s) as [v r| |]; [|now right|now right].
  destruct (skipWs r) as [|c r']; [now right|].
  destruct (c =? 44)%N; [|now right].
  destruct (He r') as [E'|E']; rewrite E'; [now left|now right].
Qed.

Lemma membersStep_mono pv pv' pm pm' (s : JSString) :
  (forall x, refinedBy (pv x) (pv' x)) -> (forall x, refinedBy (pm x) (pm' x)) ->
  refinedBy (membersStep pv pm s) (membersStep pv' pm' s).
Proof.
  intros Hv Hm. unfold membersStep.
  destruct (skipWs s) as [|q r]; [now right|].
  destruct (negb (q =? 34)%N); [now right|].
  destruct (parseString r) as [[k r1]|]; [|now right].
  destruct (skipWs r1) as [|col r2]; [now right|].
  destruct (negb (col =? 58)%N); [now right|].
  destruct (Hv r2) as [E|E]; rewrite E; [now left|].
  destruct (pv' r2) as [v r3| |]; [|now right|now right].
  destruct (skipWs r3) as [|c r4]; [now right|].
  destruct (c =? 44)%N; [|now right].
  destruct (Hm r4) as [E'|E']; rewrite E'; [now left|now right].
Qed.

Lemma parse_fuel_succ (f : nat) :
  (forall s, refinedBy (parseValue f s) (parseValue (S f) s))
  /\ (forall s, refinedBy (parseElements f s) (parseElements (S f) s))
  /\ (forall s, refinedBy (parseMembers f s) (parseMembers (S f) s)).
Proof.
  induction f as [|f (IHv & IHe & IHm)].
  - repeat split; intros s; now left.
  - repeat split; intros s.
    + apply valueStep_mono; assumption.
    + apply elementsStep_mono; assumption.
    + apply membersStep_mono; assumption.
Qed.

(** More fuel does not change a result that was reached. *)
Lemma parseValue_fuel_mono (f f' : nat) (s : JSString) v rest :
  (f <= f')%nat -> parseValue f s = POk v rest -> parseValue f' s = POk v rest.
Proof.
  induction 1 as [|f' Hle IH]; [auto|].
  intros H. specialize (IH H).
  destruct (proj1 (parse_fuel_succ f') s) as [E|E]; congruence.
Qed.

Lemma parseElements_fuel_mono (f f' : nat) (s : JSString) v rest :
  (f <= f')%nat -> parseElements f s = POk v rest -> parseElements f' s = POk v rest.
Proof.
  induction 1 as [|f' Hle IH]; [auto|].
  intros H. specialize (IH H).
  destruct (proj1 (proj2 (parse_fuel_succ f')) s) as [E|E]; congruence.
Qed.

Lemma skipWs_length (s : JSString) : (length (skipWs s) <= length s)%nat.
Proof.
  induction s as [|c r IH]; simpl; [lia|].
  destruct (isJSONWhiteSpace c); simpl; lia.
Qed.

Lemma skipWs_cons_length (s : JSString) c r :
  skipWs s = c :: r -> (length r < length s)%nat.
Proof.
  intros H. pose proof (skipWs_length s) as L. rewrite H in L. simpl in L. lia.
Qed.

Lemma parseString_length (s : JSString) str rest :
  parseString s = Some (str, rest) -> (length rest < length s)%nat.
Proof.
  assert (G : forall n s str rest, (length s <= n)%nat ->
                parseString s = Some (str, rest) -> (length rest < length s)%nat).
  { clear. induction n as [|n IH]; intros s str rest Hn H.
    - destruct s; [discriminate|simpl in Hn; lia].
    - destruct s as [|c r]; [discriminate|]. simpl in Hn. cbn [parseString] in H.
      destruct (c =? 34)%N.
      { injection H as _ <-. simpl. lia. }
      destruct (c =? 92)%N.
      { destruct r as [|e r1]; [discriminate|].
        destruct (e =? 117)%N.
        - destruct r1 as [|h1 [|h2 [|h3 [|h4 r2]]]]; try discriminate.
          destruct (hexValue h1), (hexValue h2), (hexValue h3), (hexValue h4);
            try discriminate.
          destruct (parseString r2) as [[str' rest']|] eqn:E; [|discriminate].
          injection H as _ <-. apply IH in E; simpl in *; lia.
        - destruct (simpleEscape e); [|discriminate].
          destruct (parseString r1) as [[str' rest']|] eqn:E; [|discriminate].
          injection H as _ <-. apply IH in E; simpl in *; lia. }
      destruct (c <? 32)%N; [discriminate|].
      destruct (parseString r) as [[str' rest']|] eqn:E; [|discriminate].
      injection H as _ <-. apply IH in E; simpl in *; lia. }
  apply (G (length s)). lia.
Qed.

Lemma expectUnits_length (lit s rest : JSString) :
  expectUnits lit s = Some rest -> (length rest + length lit = length s)%nat.
Proof.
  revert s; induction lit as [|c lit IH]; intros s H; simpl in *.
  - injection H as ->. lia.
  - destruct s as [|x r]; [discriminate|].
    destruct (x =? c)%N; [|discriminate]. apply IH in H. simpl. lia.
Qed.

Lemma readDigitRun_length (s : JSString) (acc : N) (n : Z) :
  let '(_, _, rest) := readDigitRun s acc n in (length rest <= length s)%nat.
Proof.
  revert acc n; induction s as [|c r IH]; intros acc n; simpl; [lia|].
  destruct (isDigit c); simpl; [|lia].
  specialize (IH (acc * 10 + (c - 48))%N (n + 1)).
  destruct (readDigitRun r _ _) as [[a k] rest]. lia.
Qed.

Lemma parseNumber_length (s : JSString) v rest :
  parseNumber s = POk v rest -> (length rest < length s)%nat.
Proof.
  unfold parseNumber.
  set (p := match s with
            | c :: r => if (c =? 45)%N then (true, r) else (false, s)
            | [] => (false, s)
            end).
  assert (Hp : (length (snd p) <= length s)%nat).
  { unfold p. destruct s as [|c r]; simpl; [lia|].
    destruct (c =? 45)%N; simpl; lia. }
  destruct p as [neg s0]. simpl in Hp.
  destruct s0 as [|c r]; [discriminate|].
  destruct (isDigit c) eqn:Hc; [|discriminate]. cbn [negb].
  set (q := if (c =? 48)%N then (0%N, 1, r) else readDigitRun (c :: r) 0%N 0).
  assert (Hq : (length (snd q) <= length r)%nat).
  { unfold q. destruct (c =? 48)%N; [simpl; lia|].
    cbn [readDigitRun]. rewrite Hc.
    pose proof (readDigitRun_length r (0 * 10 + (c - 48))%N (0 + 1)) as L.
    destruct (readDigitRun r _ _) as [[a k] x]. simpl. exact L. }
  destruct q as [[ip k0] s1]. simpl in Hq.
  set (q2 := match s1 with
             | p :: r1 =>
                 if (p =? 46)%N
                 then let '(m, k, r2) := readDigitRun r1 ip 0 in (m, k, r2, 0 <? k)
                 else (ip, 0, s1, true)
             | [] => (ip, 0, s1, true)
             end).
  assert (Hq2 : (length (snd (fst q2)) <= length s1)%nat).
  { unfold q2. destruct s1 as [|p r1]; [simpl; lia|].
    destruct (p =? 46)%N; [|simpl; lia].
    pose proof (readDigitRun_length r1 ip 0) as L.
    destruct (readDigitRun r1 ip 0) as [[a k] x]. simpl in *. lia. }
  destruct q2 as [[[mant nfrac] s2] okf]. simpl in Hq2.
  destruct okf; [|discriminate]. cbn [negb].
  destruct s2 as [|e r3].
  { intros H. injection H as _ <-. simpl in *. lia. }
  destruct ((e =? 101)%N || (e =? 69)%N).
  2:{ intros H. injection H as _ <-. simpl in *. lia. }
  set (q3 := match r3 with
             | sg :: r' =>
                 if (sg =? 45)%N then (true, r')
                 else if (sg =? 43)%N then (false, r') else (false, r3)
             | [] => (false, r3)
             end).
  assert (Hq3 : (length (snd q3) <= length r3)%nat).
  { unfold q3. destruct r3 as [|sg r']; [simpl; lia|].
    destruct (sg =? 45)%N; [simpl; lia|]. destruct (sg =? 43)%N; simpl; lia. }
  destruct q3 as [eneg r4]. simpl in Hq3.
  pose proof (readDigitRun_length r4 0%N 0) as L.
  destruct (readDigitRun r4 0%N 0) as [[ev k] r5].
  destruct (k =? 0); [discriminate|].
  intros H. injection H as _ <-. simpl in *. lia.
Qed.

Lemma valueStep_consumes pe pm :
  Consumes pe -> Consumes pm -> Consumes (valueStep pe pm).
Proof.
  intros He Hm s a rest. unfold valueStep.
  destruct (skipWs s) as [|c r] eqn:Es; [discriminate|].
  apply skipWs_cons_length in Es.
  destruct (c =? 123)%N.
  { destruct (skipWs r) as [|c' r'] eqn:Er; [discriminate|].
    pose proof (skipWs_length r) as Lr. rewrite Er in Lr. simpl in Lr.
    destruct (c' =? 125)%N.
    - intros H. injection H as _ <-. lia.
    - destruct (pm (c' :: r')) as [ms x| |] eqn:E; try discriminate.
      intros H. injection H as _ <-. apply Hm in E. simpl in E. lia. }
  destruct (c =? 91)%N.
  { destruct (skipWs r) as [|c' r'] eqn:Er; [discriminate|].
    pose proof (skipWs_length r) as Lr. rewrite Er in Lr. simpl in Lr.
    destruct (c' =? 93)%N.
    - intros H. injection H as _ <-. lia.
    - destruct (pe (c' :: r')) as [ms x| |] eqn:E; try discriminate.
      intros H. injection H as _ <-. apply He in E. simpl in E. lia. }
  destruct (c =? 34)%N.
  { destruct (parseString r) as [[str x]|] eqn:E; [|discriminate].
    intros H. injection H as _ <-. apply parseString_length in E. lia. }
  destruct (c =? 116)%N.
  { intros H. unfold parseLiteral in H.
    destruct (expectUnits (u "true") (c :: r)) as [x|] eqn:E; [|discriminate].
    injection H as _ <-. apply expectUnits_length in E. simpl in E. lia. }
  destruct (c =? 102)%N.
  { intros H. unfold parseLiteral in H.
    destruct (expectUnits (u "false") (c :: r)) as [x|] eqn:E; [|discriminate].
    injection H as _ <-. apply expectUnits_length in E. simpl in E. lia. }
  destruct (c =? 110)%N.
  { intros H. unfold parseLiteral in H.
    destruct (expectUnits (u "null") (c :: r)) as [x|] eqn:E; [|discriminate].
    injection H as _ <-. apply expectUnits_length in E. simpl in E. lia. }
  intros H. apply parseNumber_length in H. simpl in H. lia.
Qed.

Lemma elementsStep_consumes pv pe :
  Consumes pv -> Consumes pe -> Consumes (elementsStep pv pe).
Proof.
  intros Hv He s a rest. unfold elementsStep.
  destruct (pv s) as [v r| |] eqn:E; try discriminate. apply Hv in E.
  destruct (skipWs r) as [|c r'] eqn:Er; [discriminate|].
  apply skipWs_cons_length in Er.
  destruct (c =? 44)%N.
  - destruct (pe r') as [vs x| |] eqn:E'; try discriminate.
    intros H. injection H as _ <-. apply He in E'. lia.
  - destruct (c =? 93)%N; [|discriminate].
    intros H. injection H as _ <-. lia.
Qed.

Lemma membersStep_consumes pv pm :
  Consumes pv -> Consumes pm -> Consumes (membersStep pv pm).
Proof.
  intros Hv Hm s a rest. unfold membersStep.
  destruct (skipWs s) as [|q r] eqn:Es; [discriminate|].
  apply skipWs_cons_length in Es.
  destruct (negb (q =? 34)%N); [discriminate|].
  destruct (parseString r) as [[k r1]|] eqn:Ek; [|discriminate].
  apply parseString_length in Ek.
  destruct (skipWs r1) as [|col r2] eqn:E1; [discriminate|].
  apply skipWs_cons_length in E1.
  destruct (negb (col =? 58)%N); [discriminate|].
  destruct (pv r2) as [v r3| |] eqn:E; try discriminate. apply Hv in E.
  destruct (skipWs r3) as [|c r4] eqn:E3; [discriminate|].
  apply skipWs_cons_length in E3.
  destruct (c =? 44)%N.
  - destruct (pm r4) as [ms x| |] eqn:E'; try discriminate.
    intros H. injection H as _ <-. apply Hm in E'. lia.
  - destruct (c =? 125)%N; [|discriminate].
    intros H. injection H as _ <-. lia.
Qed.

Lemma parse_consumes (f : nat) :
  Consumes (parseValue f) /\ Consumes (parseElements f) /\ Consumes (parseMembers f).
Proof.
  induction f as [|f (IHv & IHe & IHm)].
  - repeat split; intros s a rest H; discriminate.
  - repeat split.
    + apply valueStep_consumes; assumption.
    + apply elementsStep_consumes; assumption.
    + apply membersStep_consumes; assumption.
Qed.

(** With fuel for twice the length of the text no parser runs out. *)
Lemma parse_fuel_enough (f : nat) :
  (forall s, (2 * length s + 1 <= f)%nat -> parseValue f s <> POutOfFuel)
  /\ (forall s, (2 * length s + 2 <= f)%nat -> parseElements f s <> POutOfFuel)
  /\ (forall s, (2 * length s + 2 <= f)%nat -> parseMembers f s <> POutOfFuel).
Proof.
  induction f as [|f (IHv & IHe & IHm)].
  - repeat split; intros s H; lia.
  - destruct (parse_consumes f) as (Cv & Ce & Cm).
    repeat split; intros s Hf.
    + cbn [parseValue]. unfold valueStep.
      destruct (skipWs s) as [|c r] eqn:Es; [discriminate|].
      apply skipWs_cons_length in Es.
      destruct (c =? 123)%N.
      { destruct (skipWs r) as [|c' r'] eqn:Er; [discriminate|].
        pose proof (skipWs_length r) as Lr. rewrite Er in Lr. simpl in Lr.
        destruct (c' =? 125)%N; [discriminate|].
        destruct (parseMembers f (c' :: r')) eqn:E; try discriminate.
        exfalso. apply (IHm (c' :: r')); [simpl; lia|assumption]. }
      destruct (c =? 91)%N.
      { destruct (skipWs r) as [|c' r'] eqn:Er; [discriminate|].
        pose proof (skipWs_length r) as Lr. rewrite Er in Lr. simpl in Lr.
        destruct (c' =? 93)%N; [discriminate|].
        destruct (parseElements f (c' :: r')) eqn:E; try discriminate.
        exfalso. apply (IHe (c' :: r')); [simpl; lia|assumption]. }
      destruct (c =? 34)%N.
      { destruct (parseString r) as [[str x]|]; discriminate. }
      assert (L : forall lit v x, parseLiteral lit v x <> POutOfFuel).
      { intros lit v x. unfold parseLiteral.
        destruct (expectUnits (u lit) x); discriminate. }
      destruct (c =? 116)%N; [apply L|].
      destruct (c =? 102)%N; [apply L|].
      destruct (c =? 110)%N; [apply L|].
      unfold parseNumber.
      repeat match goal with
             | |- context [match ?x with _ => _ end] => destruct x
             end; discriminate.
    + cbn [parseElements]. unfold elementsStep.
      destruct (parseValue f s) as [v r| |] eqn:E; try discriminate.
      * apply Cv in E.
        destruct (skipWs r) as [|c r'] eqn:Er; [discriminate|].
        apply skipWs_cons_length in Er.
        destruct (c =? 44)%N.
        -- destruct (parseElements f r') eqn:E'; try discriminate.
           exfalso. apply (IHe r'); [lia|assumption].
        -- destruct (c =? 93)%N; discriminate.
      * exfalso. apply (IHv s); [lia|assumption].
    + cbn [parseMembers]. unfold membersStep.
      destruct (skipWs s) as [|q r] eqn:Es; [discriminate|].
      apply skipWs_cons_length in Es.
      destruct (negb (q =? 34)%N); [discriminate|].
      destruct (parseString r) as [[k r1]|] eqn:Ek; [|discriminate].
      apply parseString_length in Ek.
      destruct (skipWs r1) as [|col r2] eqn:E1; [discriminate|].
      apply skipWs_cons_length in E1.
      destruct (negb (col =? 58)%N); [discriminate|].
      destruct (parseValue f r2) as [v r3| |] eqn:E; try discriminate.
      * apply Cv in E.
        destruct (skipWs r3) as [|c r4] eqn:E3; [discriminate|].
        apply skipWs_cons_length in E3.
        destruct (c =? 44)%N.
        -- destruct (parseMembers f r4) eqn:E'; try discriminate.
           exfalso. apply (IHm r4); [lia|assumption].
        -- destruct (c =? 125)%N; discriminate.
      * exfalso. apply (IHv r2); [lia|assumption].
Qed.

(** The fuel [JSON_parse] takes is enough: the grammar decides every text,
    so [None] is a [SyntaxError] and never a lack of fuel. *)
Lemma parseValue_fuel (s : JSString) : parseValue (parseFuel s) s <> POutOfFuel.
Proof. apply (proj1 (parse_fuel_enough (parseFuel s))). unfold parseFuel. lia. Qed.

(** Whatever fuel gives a value, [JSON_parse] finds that value. *)
Lemma parseValue_at_parseFuel (f : nat) (s : JSString) v rest :
  parseValue f s = POk v rest -> parseValue (parseFuel s) s = POk v rest.
Proof.
  intros H. destruct (Nat.le_ge_cases f (parseFuel s)) as [L|L].
  - now apply (parseValue_fuel_mono f).
  - destruct (parseValue (parseFuel s) s) as [v' r'| |] eqn:E.
    + apply (parseValue_fuel_mono _ f) in E; [congruence|assumption].
    + exfalso.
      assert (G : forall a b, (a <= b)%nat -> parseValue a s = PSyntaxError ->
                              parseValue b s = PSyntaxError).
      { intros a b Hab. induction Hab as [|b Hab IH]; [auto|].
        intros Ha. specialize (IH Ha).
        destruct (proj1 (parse_fuel_succ b) s) as [E'|E']; congruence. }
      rewrite (G _ _ L E) in H. discriminate.
    + exfalso. now apply (parseValue_fuel s).
Qed.

(** ** The stored text read back *)

Lemma parseValue_string (f : nat) (s rest : JSString) :
  parseValue (S f) (quoteJSONString s ++ rest) = POk (JString s) rest.
Proof.
  unfold quoteJSONString. cbn [app parseValue]. rewrite <- app_assoc. cbn [app].
  unfold valueStep. cbn [skipWs].
  change (isJSONWhiteSpace 34) with false. cbv iota.
  change ((34 =? 123)%N) with false. change ((34 =? 91)%N) with false.
  change ((34 =? 34)%N) with true. cbv iota.
  now rewrite parseString_quoteUnits.
Qed.

Lemma parseValue_bool (f : nat) (b : bool) (rest : JSString) :
  parseValue (S f) (u (if b then "true" else "false") ++ rest) = POk (JBool b) rest.
Proof.
  destruct b; cbn [parseValue]; unfold valueStep.
  - change (u "true" ++ rest) with (116%N :: 114%N :: 117%N :: 101%N :: rest).
    cbn [skipWs]. change (isJSONWhiteSpace 116) with false. cbv iota.
    change ((116 =? 123)%N) with false. change ((116 =? 91)%N) with false.
    change ((116 =? 34)%N) with false. change ((116 =? 116)%N) with true.
    cbv iota. unfold parseLiteral.
    change (u "true") with [116%N; 114%N; 117%N; 101%N].
    cbn [expectUnits]. rewrite !N.eqb_refl. reflexivity.
  - change (u "false" ++ rest)
      with (102%N :: 97%N :: 108%N :: 115%N :: 101%N :: rest).
    cbn [skipWs]. change (isJSONWhiteSpace 102) with false. cbv iota.
    change ((102 =? 123)%N) with false. change ((102 =? 91)%N) with false.
    change ((102 =? 34)%N) with false. change ((102 =? 116)%N) with false.
    change ((102 =? 102)%N) with true.
    cbv iota. unfold parseLiteral.
    change (u "false") with [102%N; 97%N; 108%N; 115%N; 101%N].
    cbn [expectUnits]. rewrite !N.eqb_refl. reflexivity.
Qed.

(** A member whose key is plain text, before the value. *)
Lemma membersStep_member pv pm (key : string) (tail : JSString) :
  (forall tl, parseString (u key ++ 34%N :: tl) = Some (u key, tl)) ->
  membersStep pv pm (memberKey key ++ tail)
  = match pv tail with
    | POk v r3 =>
        match skipWs r3 with
        | [] => PSyntaxError
        | c :: r4 =>
            if (c =? 44)%N then
              match pm r4 with
              | POk ms rest => POk ((u key, v) :: ms) rest
              | PSyntaxError => PSyntaxError
              | POutOfFuel => POutOfFuel
              end
            else if (c =? 125)%N then POk [(u key, v)] r4
            else PSyntaxError
        end
    | PSyntaxError => PSyntaxError
    | POutOfFuel => POutOfFuel
    end.
Proof.
  intros Hk. unfold membersStep, memberKey.
  cbn [app skipWs]. change (isJSONWhiteSpace 34) with false. cbv iota.
  change ((34 =? 34)%N) with true. cbn [negb].
  rewrite <- app_assoc. cbn [app]. rewrite Hk.
  cbn [skipWs]. change (isJSONWhiteSpace 58) with false. cbv iota.
  change ((58 =? 58)%N) with true. cbn [negb]. reflexivity.
Qed.

Lemma valueStep_object pe pm (key : string) (tail : JSString) :
  valueStep pe pm (123%N :: memberKey key ++ tail)
  = match pm (memberKey key ++ tail) with
    | POk ms rest => POk (JObject ms) rest
    | PSyntaxError => PSyntaxError
    | POutOfFuel => POutOfFuel
    end.
Proof.
  unfold valueStep, memberKey. cbn [app skipWs].
  change (isJSONWhiteSpace 123) with false. cbv iota.
  change ((123 =? 123)%N) with true. cbv iota.
  change (isJSONWhiteSpace 34) with false. cbv iota.
  change ((34 =? 125)%N) with false. reflexivity.
Qed.

Lemma skipWs_comma (r : JSString) : skipWs (44%N :: r) = 44%N :: r.
Proof. reflexivity. Qed.

Lemma skipWs_brace (r : JSString) : skipWs (125%N :: r) = 125%N :: r.
Proof. reflexivity. Qed.

Lemma parseValue_stringifyTask (f : nat) (t : V2.Task) (rest : JSString) :
  parseValue (S (S (S (S (S (S f)))))) (V2.stringifyTask t ++ rest)
  = POk (taskJSON t) rest.
Proof.
  unfold V2.stringifyTask, taskJSON.
  destruct (V2.dueDate t) as [d|];
    rewrite <- !app_assoc; cbn [app];
    cbn [parseValue]; rewrite valueStep_object;
    cbn [parseMembers]; rewrite membersStep_member by (intros; reflexivity);
    rewrite parseValue_string, skipWs_comma;
    change ((44 =? 44)%N) with true; cbv iota;
    rewrite membersStep_member by (intros; reflexivity);
    rewrite parseValue_string, skipWs_comma;
    change ((44 =? 44)%N) with true; cbv iota;
    rewrite membersStep_member by (intros; reflexivity);
    rewrite parseValue_bool.
  - rewrite skipWs_comma.
    change ((44 =? 44)%N) with true. cbv iota.
    rewrite membersStep_member by (intros; reflexivity).
    rewrite parseValue_string, skipWs_brace.
    change ((125 =? 44)%N) with false. change ((125 =? 125)%N) with true.
    reflexivity.
  - rewrite skipWs_brace.
    change ((125 =? 44)%N) with false. change ((125 =? 125)%N) with true.
    reflexivity.
Qed.

Lemma stringifyTask_head (t : V2.Task) :
  exists r, V2.stringifyTask t = 123%N :: 34%N :: r.
Proof. unfold V2.stringifyTask, memberKey. cbn [app]. eexists. reflexivity. Qed.

(** The elements of a printed array of tasks, up to the closing bracket. *)
Lemma parseElements_tasks (l : list V2.Task) (t : V2.Task) (f : nat) (rest : JSString) :
  (length l + 8 <= f)%nat ->
  parseElements f (joinWith [44%N] (map V2.stringifyTask (t :: l)) ++ 93%N :: rest)
  = POk (map taskJSON (t :: l)) rest.
Proof.
  revert t f; induction l as [|t' l IH]; intros t f Hf.
  - destruct f as [|f]; [lia|]. cbn [map joinWith parseElements]. unfold elementsStep.
    rewrite (parseValue_fuel_mono 6 f _ (taskJSON t) (93%N :: rest));
      [|lia|apply (parseValue_stringifyTask 0)].
    reflexivity.
  - destruct f as [|f]; [lia|].
    change (joinWith [44%N] (map V2.stringifyTask (t :: t' :: l)))
      with (V2.stringifyTask t ++ [44%N]
              ++ joinWith [44%N] (map V2.stringifyTask (t' :: l))).
    rewrite <- !app_assoc. cbn [app parseElements]. unfold elementsStep.
    rewrite (parseValue_fuel_mono 6 f _ (taskJSON t)
               (44%N :: joinWith [44%N] (map V2.stringifyTask (t' :: l))
                  ++ 93%N :: rest));
      [|simpl in Hf; lia|apply (parseValue_stringifyTask 0)].
    rewrite skipWs_comma. change ((44 =? 44)%N) with true. cbv iota.
    rewrite IH by (simpl in Hf; lia). reflexivity.
Qed.

(** [JSON.parse] reads what [JSON.stringify] wrote of a task list. *)
Lemma JSON_parse_stringify (l : list V2.Task) :
  JSON_parse (V2.JSON_stringify l) = Some (JArray (map taskJSON l)).
Proof.
  destruct l as [|t l]; [reflexivity|].
  unfold JSON_parse.
  assert (E : parseValue (length l + 9) (V2.JSON_stringify (t :: l))
              = POk (JArray (map taskJSON (t :: l))) []).
  { unfold V2.JSON_stringify. replace (length l + 9)%nat with (S (length l + 8)) by lia.
    cbn [app parseValue]. unfold valueStep. cbn [skipWs].
    change (isJSONWhiteSpace 91) with false. cbv iota.
    change ((91 =? 123)%N) with false. change ((91 =? 91)%N) with true. cbv iota.
    destruct (stringifyTask_head t) as (r & Er).
    assert (Es : exists r', joinWith [44%N] (map V2.stringifyTask (t :: l)) ++ [93%N]
                            = 123%N :: 34%N :: r').
    { destruct l; cbn [map joinWith]; rewrite Er; cbn [app]; eexists; reflexivity. }
    destruct Es as (r' & Es). rewrite Es. cbn [skipWs].
    change (isJSONWhiteSpace 123) with false. cbv iota.
    change ((123 =? 93)%N) with false. cbv iota.
    rewrite <- Es. rewrite parseElements_tasks by lia. reflexivity. }
  apply parseValue_at_parseFuel in E. rewrite E. reflexivity.
Qed.

Lemma withDate_taskJSON (t : V2.Task) :
  V2.withDate (taskJSON t) = Normal (revived t).
Proof.
  unfold V2.withDate, revived, taskJSON.
  destruct (V2.dueDate t) as [d|]; cbn [app].
  - change (getProp (u "dueDate") (JObject _))
      with (Some (JString (toISOString d))).
    cbn [truthy toPrimitiveThrows]. now rewrite toISOString_nonempty.
  - reflexivity.
Qed.

Lemma mapC_withDate_tasks (l : list V2.Task) :
  mapC V2.withDate (map taskJSON l) = Normal (map revived l).
Proof.
  induction l as [|t l IH]; [reflexivity|].
  cbn [map mapC]. rewrite withDate_taskJSON, IH. reflexivity.
Qed.

Lemma asTask_revived (t : V2.Task) :
  (forall d, V2.dueDate t = Some d -> validTime d) ->
  V2.asTask (revived t) = Some t.
Proof.
  intros Hv. destruct t as [i x c [d|]]; unfold V2.asTask, revived, taskJSON; simpl.
  - now rewrite parseISO_toISOString by (now apply Hv).
  - reflexivity.
Qed.

Lemma withDate_spreadOf (v : JValue) (o : V2.TaskWithDate) :
  V2.withDate v = Normal o -> V2.spreadOf o = v /\ v <> JNull.
Proof.
  unfold V2.withDate. intros H.
  destruct v; try discriminate;
    destruct (truthy _); try (injection H as <-; split; [reflexivity|discriminate]);
    destruct (getProp _ _) as [w|]; try (injection H as <-; split; [reflexivity|discriminate]);
    destruct (toPrimitiveThrows w); try discriminate;
    injection H as <-; split; [reflexivity|discriminate].
Qed.

Lemma mapC_withDate_normal (l : list JValue) (loaded : list V2.TaskWithDate) :
  mapC V2.withDate l = Normal loaded ->
  map V2.spreadOf loaded = l /\ ~ In JNull l.
Proof.
  revert loaded; induction l as [|v l IH]; intros loaded H; cbn [mapC] in H.
  - injection H as <-. split; [reflexivity|intros []].
  - destruct (V2.withDate v) as [o|e] eqn:Ev; [|discriminate]. cbn [bindC] in H.
    destruct (mapC V2.withDate l) as [os|e]; [|discriminate]. cbn [bindC] in H.
    injection H as <-. destruct (IH os eq_refl) as [IH1 IH2].
    apply withDate_spreadOf in Ev as [E1 E2]. split.
    + cbn [map]. now rewrite E1, IH1.
    + intros [E|E]; contradiction.
Qed.

Lemma loadTasks_of_body (s : JSString) :
  s <> [] ->
  V2.loadTasks (Some s)
  = match V2.loadBody s with
    | Normal l => Normal (mkMounted l [])
    | Throw _ => Normal (mkMounted [] [parseDiagnostic])
    end.
Proof.
  intros H. unfold V2.loadTasks. destruct s; [contradiction|]. cbn [isEmptyString].
  now destruct (V2.loadBody _).
Qed.

Lemma JSON_stringify_nonempty (l : list V2.Task) : V2.JSON_stringify l <> [].
Proof. unfold V2.JSON_stringify. discriminate. Qed.

(** ** The claims on the stored text *)

(** C7. A task sequence whose due dates are valid dates, written by the
    save effect and read by the load effect, comes back as a sequence of
    the same length whose elements are, in order, the tasks that were
    written: same id, same text, same completion flag, the same due date
    (to the millisecond, hence the same calendar day) or none where there
    was none.  The load raises nothing and logs nothing. *)
Theorem save_load_roundtrip (l : list V2.Task) :
  Forall (fun t => forall d, V2.dueDate t = Some d -> validTime d) l ->
  exists loaded,
    V2.loadTasks (Some (V2.saveTasks l)) = Normal (mkMounted loaded [])
    /\ length loaded = length l
    /\ map V2.asTask loaded = map Some l
    /\ (forall n t, nth_error l n = Some t ->
          exists o, nth_error loaded n = Some o /\ V2.asTask o = Some t).
Proof.
  intros Hv. exists (map revived l).
  assert (Hmap : map V2.asTask (map revived l) = map Some l).
  { rewrite map_map. induction Hv as [|t l Ht Hl IH]; [reflexivity|].
    cbn [map]. now rewrite asTask_revived, IH. }
  repeat split.
  - unfold V2.saveTasks. rewrite loadTasks_of_body by apply JSON_stringify_nonempty.
    unfold V2.loadBody. rewrite JSON_parse_stringify, mapC_withDate_tasks. reflexivity.
  - apply length_map.
  - exact Hmap.
  - intros n t Hn. exists (revived t). split.
    + now rewrite nth_error_map, Hn.
    + apply asTask_revived. rewrite Forall_forall in Hv. apply Hv.
      now apply nth_error_In in Hn.
Qed.

Lemma save_load_roundtrip_witness :
  exists loaded,
    V2.loadTasks
      (Some (V2.saveTasks
               [V2.mkTask (u "1700000000000") (u "Buy milk") false None;
                V2.mkTask (u "1700000000001") (34%N :: u "quoted\" ++ [10; 55357]%N)
                  true (Some 1700086400000)]))
    = Normal (mkMounted loaded [])
    /\ map V2.asTask loaded
       = [Some (V2.mkTask (u "1700000000000") (u "Buy milk") false None);
          Some (V2.mkTask (u "1700000000001")
                  (34%N :: u "quoted\" ++ [10; 55357]%N) true (Some 1700086400000))].
Proof.
  destruct (save_load_roundtrip
              [V2.mkTask (u "1700000000000") (u "Buy milk") false None;
               V2.mkTask (u "1700000000001") (34%N :: u "quoted\" ++ [10; 55357]%N)
                 true (Some 1700086400000)]) as (loaded & H1 & _ & H2 & _).
  - apply Forall_cons; [intros d E; discriminate|].
    apply Forall_cons; [|apply Forall_nil].
    intros d E. injection E as <-. unfold validTime. lia.
  - exists loaded. split; [exact H1|exact H2].
Defined.

Lemma mapC_withDate_null (l : list JValue) :
  In JNull l -> exists e, mapC V2.withDate l = Throw e.
Proof.
  induction l as [|v l IH]; intros H; [contradiction|]. cbn [mapC].
  destruct (V2.withDate v) as [o|e] eqn:Ev; [|now exists e]. cbn [bindC].
  destruct H as [->|H]; [discriminate|].
  destruct (IH H) as (e & ->). now exists e.
Qed.

(** C8, as amended. The load effect raises nothing, whatever is stored.
    With nothing or the empty text stored the task list stays empty and
    nothing is logged.  When the text is not JSON, both versions log the
    diagnostic and keep the empty list; so does version 2 when the text
    parses to something that is no array, to an array with a [null]
    element, or when its callback throws on an element.  Any other text is
    installed as parsed, with no check of its shape: version 1 sets the
    state to whatever value the text denotes, version 2 to one object for
    each element of the array. *)
Theorem loadTasks_falls_back (saved : option JSString) :
  (exists m1 m2, V1.loadTasks saved = Normal m1 /\ V2.loadTasks saved = Normal m2)
  /\ (saved = None \/ saved = Some [] ->
      V1.loadTasks saved = Normal (mkMounted (JArray []) [])
      /\ V2.loadTasks saved = Normal (mkMounted [] []))
  /\ (forall s, saved = Some s -> s <> [] -> JSON_parse s = None ->
      V1.loadTasks saved = Normal (mkMounted (JArray []) [parseDiagnostic])
      /\ V2.loadTasks saved = Normal (mkMounted [] [parseDiagnostic]))
  /\ (forall s v, saved = Some s -> s <> [] -> JSON_parse s = Some v ->
      V1.loadTasks saved = Normal (mkMounted v [])
      /\ ((forall l, v <> JArray l) ->
          V2.loadTasks saved = Normal (mkMounted [] [parseDiagnostic]))
      /\ (forall l, v = JArray l ->
          (In JNull l ->
           V2.loadTasks saved = Normal (mkMounted [] [parseDiagnostic]))
          /\ (forall e, mapC V2.withDate l = Throw e ->
              V2.loadTasks saved = Normal (mkMounted [] [parseDiagnostic]))
          /\ (forall loaded, mapC V2.withDate l = Normal loaded ->
              V2.loadTasks saved = Normal (mkMounted loaded [])
              /\ map V2.spreadOf loaded = l))).
Proof.
  assert (H1 : forall s, s <> [] ->
            V1.loadTasks (Some s)
            = match JSON_parse s with
              | Some v => Normal (mkMounted v [])
              | None => Normal (mkMounted (JArray []) [parseDiagnostic])
              end).
  { intros s Hs. unfold V1.loadTasks, V1.loadBody.
    destruct s; [contradiction|]. cbn [isEmptyString].
    now destruct (JSON_parse _). }
  split; [|split; [|split]].
  - destruct saved as [s|]; [|now eexists _, _].
    destruct s as [|c s]; [now eexists _, _|].
    rewrite H1, loadTasks_of_body by discriminate.
    destruct (JSON_parse (c :: s)), (V2.loadBody (c :: s)); now eexists _, _.
  - intros [->| ->]; split; reflexivity.
  - intros s -> Hs Hp. rewrite H1, loadTasks_of_body by assumption.
    unfold V2.loadBody. rewrite Hp. split; reflexivity.
  - intros s v -> Hs Hp. rewrite H1, loadTasks_of_body by assumption.
    unfold V2.loadBody. rewrite Hp. split; [reflexivity|]. split.
    + intros Hv. destruct v; try reflexivity. now destruct (Hv elements).
    + intros l ->. repeat split.
      * intros Hn. destruct (mapC_withDate_null l Hn) as (e & ->). reflexivity.
      * intros e ->. reflexivity.
      * now rewrite H.
      * now apply mapC_withDate_normal in H.
Qed.

Lemma loadTasks_falls_back_witness :
  V2.loadTasks (Some (u "{not json")) = Normal (mkMounted [] [parseDiagnostic]).
Proof.
  refine (proj2 (proj1 (proj2 (proj2 (loadTasks_falls_back (Some (u "{not json")))))
                   (u "{not json") eq_refl _ eq_refl)).
  discriminate.
Defined.

(** C8 as stated fails: text that is JSON but not of the expected shape is
    not discarded.  The text [[1]] parses, is no array of tasks, and
    version 2 installs an object made from the number and logs nothing;
    version 1 sets the state to the number the text [5] denotes. *)
Lemma loadTasks_keeps_unexpected_shape :
  JSON_parse (u "[1]") = Some (JArray [JNumber false 1 0])
  /\ V2.expectedShape (JArray [JNumber false 1 0]) = false
  /\ V2.loadTasks (Some (u "[1]"))
     = Normal (mkMounted [V2.mkTaskWithDate (JNumber false 1 0) None] [])
  /\ V1.loadTasks (Some (u "5")) = Normal (mkMounted (JNumber false 5 0) []).
Proof. repeat split; vm_compute; reflexivity. Qed.

(* ================================================================== *)
(** * Further properties of the handlers and the view *)

(** ** Texts *)

Lemma trimStart_app (l m : JSString) :
  trimStart (l ++ m)
  = match trimStart l with [] => trimStart m | _ => trimStart l ++ m end.
Proof.
  induction l as [|c l IH]; [reflexivity|]. cbn [app trimStart].
  destruct (isWhiteSpace c); [exact IH|reflexivity].
Qed.

Lemma trimStart_fixed (c : N) (r : JSString) :
  isWhiteSpace c = false -> trimStart (c :: r) = c :: r.
Proof. intros H. cbn [trimStart]. now rewrite H. Qed.

Lemma trimEnd_cons (c : N) (r : JSString) :
  isWhiteSpace c = false -> trimEnd (c :: r) = c :: trimEnd r.
Proof.
  intros H. unfold trimEnd. cbn [rev]. rewrite trimStart_app.
  rewrite (trimStart_fixed c []) by assumption.
  destruct (trimStart (rev r)); cbn [app rev]; [reflexivity|].
  now rewrite rev_app_distr.
Qed.

Lemma trimmedText_nonempty (s : JSString) : trimmedText s -> s <> [].
Proof. intros [H _] ->. discriminate. Qed.

(** What [trim] returns, when it is not empty, starts and ends with units
    that are no white space. *)
Lemma trim_trimmedText (s : JSString) : trim s <> [] -> trimmedText (trim s).
Proof.
  unfold trim. intros H.
  destruct (trimStart s) as [|c r] eqn:E; [now contradiction H|].
  pose proof (trimStart_head _ _ _ E) as Hc.
  rewrite trimEnd_cons by assumption. split; [exact Hc|].
  unfold trimEnd.
  destruct (trimStart (rev r)) as [|d b] eqn:Eb; [exact Hc|].
  pose proof (trimStart_head _ _ _ Eb) as Hd.
  cbn [rev]. change (c :: rev b ++ [d]) with ((c :: rev b) ++ [d]).
  now rewrite last_last.
Qed.

Lemma hd_rev_last (s : JSString) (d : N) : hd d (rev s) = last s d.
Proof.
  destruct (rev s) as [|c r] eqn:E.
  - apply (f_equal (@rev N)) in E. rewrite rev_involutive in E. now subst.
  - apply (f_equal (@rev N)) in E. rewrite rev_involutive in E. subst.
    cbn [rev hd]. now rewrite last_last.
Qed.

(** Trimming a trimmed text changes nothing. *)
Lemma trim_of_trimmedText (s : JSString) : trimmedText s -> trim s = s.
Proof.
  intros [Hh Hl]. unfold trim, trimEnd.
  destruct s as [|c r]; [discriminate|]. cbn [hd] in Hh.
  rewrite trimStart_fixed by assumption.
  rewrite <- hd_rev_last in Hl.
  destruct (rev (c :: r)) as [|d b] eqn:E.
  - apply (f_equal (@length N)) in E. rewrite length_rev in E. discriminate.
  - cbn [hd] in Hl. rewrite trimStart_fixed by assumption.
    rewrite <- E. apply rev_involutive.
Qed.

(** X1. Every text in the store is a trimmed one: from a store whose texts
    are not empty and neither start nor end with white space (the empty
    store, for one), every run of actions leads to such a store, and
    trimming any of its texts again changes nothing. *)
Theorem task_texts_stay_trimmed (acts : list Action) (st : V2.State) :
  Forall (fun t => trimmedText (V2.text t)) (V2.tasks st) ->
  Forall (fun t => trimmedText (V2.text t)
                   /\ V2.text t <> []
                   /\ trim (V2.text t) = V2.text t)
    (V2.tasks (V2.run acts st)).
Proof.
  intros H.
  assert (G : Forall (fun t => trimmedText (V2.text t)) (V2.tasks (V2.run acts st))).
  { revert st H; induction acts as [|a acts IH]; intros st H; [exact H|].
    cbn [V2.run fold_left]. apply IH.
    destruct a as [v|d|now|i|i]; cbn [V2.step]; try exact H.
    - unfold V2.addTask.
      destruct (trim (V2.inputValue st)) as [|c r] eqn:E; [exact H|].
      cbn [isEmptyString V2.tasks]. apply Forall_app. split; [exact H|].
      constructor; [|constructor]. cbn [V2.text]. rewrite <- E.
      apply trim_trimmedText. rewrite E. discriminate.
    - cbn [V2.toggleComplete V2.tasks]. unfold V2.toggleTasks.
      rewrite Forall_forall in *. intros t Ht.
      apply in_map_iff in Ht as (t0 & <- & Ht0).
      destruct (unitsEqb (V2.id t0) i); cbn [V2.text]; now apply H.
    - cbn [V2.deleteTask V2.tasks]. unfold V2.deleteTasks.
      rewrite Forall_forall in *. intros t Ht.
      apply filter_In in Ht as [Ht _]. now apply H. }
  rewrite Forall_forall in *. intros t Ht. specialize (G t Ht).
  repeat split; try apply G.
  - now apply trimmedText_nonempty.
  - now apply trim_of_trimmedText.
Qed.

Lemma task_texts_stay_trimmed_witness :
  Forall (fun t => trimmedText (V2.text t)
                   /\ V2.text t <> []
                   /\ trim (V2.text t) = V2.text t)
    (V2.tasks (V2.run [ASetInput (u "  Buy milk  "); AAdd 1700000000000;
                       ASetInput (u "   "); AAdd 1700000000001;
                       AToggle (u "1700000000000")] V2.initialState)).
Proof.
  apply (task_texts_stay_trimmed
           [ASetInput (u "  Buy milk  "); AAdd 1700000000000;
            ASetInput (u "   "); AAdd 1700000000001;
            AToggle (u "1700000000000")] V2.initialState).
  simpl. constructor.
Defined.

(** ** The handlers together *)

Lemma step_provenance (st : V2.State) (a : Action) (t : V2.Task) :
  In t (V2.tasks (V2.step st a)) ->
  (exists t0, In t0 (V2.tasks st) /\ V2.id t0 = V2.id t
              /\ V2.text t0 = V2.text t /\ V2.dueDate t0 = V2.dueDate t)
  \/ (exists now, a = AAdd now /\ V2.id t = numberToString now
                  /\ V2.text t = trim (V2.inputValue st)
                  /\ V2.dueDate t = V2.selectedDate st
                  /\ V2.completed t = false).
Proof.
  assert (Same : forall x, In x (V2.tasks st) ->
            exists t0, In t0 (V2.tasks st) /\ V2.id t0 = V2.id x
                       /\ V2.text t0 = V2.text x /\ V2.dueDate t0 = V2.dueDate x)
    by (intros x Hx; exists x; auto).
  destruct a as [v|d|now|i|i]; cbn [V2.step]; intros H; try (left; now apply Same).
  - unfold V2.addTask in H.
    destruct (isEmptyString (trim (V2.inputValue st))); [left; now apply Same|].
    cbn [V2.tasks] in H. apply in_app_iff in H as [H|[<-|[]]]; [left; now apply Same|].
    right. exists now. repeat split.
  - left. cbn [V2.toggleComplete V2.tasks] in H. unfold V2.toggleTasks in H.
    apply in_map_iff in H as (t0 & <- & Ht0). exists t0.
    destruct (unitsEqb (V2.id t0) i); auto.
  - left. cbn [V2.deleteTask V2.tasks] in H. unfold V2.deleteTasks in H.
    apply filter_In in H as [H _]. now apply Same.
Qed.

(** X2. No handler rewrites a task: after any run of actions, each task of
    the store either has the id, the text and the due date of a task that
    was there at the start, or was added during the run and carries the
    clock reading of its Add as id. *)
Theorem tasks_keep_text_and_date (acts : list Action) (st : V2.State) (t : V2.Task) :
  In t (V2.tasks (V2.run acts st)) ->
  (exists t0, In t0 (V2.tasks st) /\ V2.id t0 = V2.id t
              /\ V2.text t0 = V2.text t /\ V2.dueDate t0 = V2.dueDate t)
  \/ (exists now, In (AAdd now) acts /\ V2.id t = numberToString now).
Proof.
  revert st; induction acts as [|a acts IH]; intros st H.
  - left. exists t. auto.
  - cbn [V2.run fold_left] in H. destruct (IH _ H) as [(t1 & H1 & Ei & Et & Ed)|(now & Hn & E)].
    + destruct (step_provenance st a t1 H1)
        as [(t0 & H0 & Ei0 & Et0 & Ed0)|(now & -> & Ei0 & _)].
      * left. exists t0. repeat split; congruence.
      * right. exists now. split; [now left|congruence].
    + right. exists now. split; [now right|assumption].
Qed.

Lemma tasks_keep_text_and_date_witness :
  (exists t0, In t0 [V2.mkTask (u "1") (u "a") false (Some 7)]
              /\ V2.id t0 = u "1" /\ V2.text t0 = u "a" /\ V2.dueDate t0 = Some 7)
  \/ (exists now, In (AAdd now) [AToggle (u "1"); ASetInput (u "b"); AAdd 5]
                  /\ u "1" = numberToString now).
Proof.
  apply (tasks_keep_text_and_date [AToggle (u "1"); ASetInput (u "b"); AAdd 5]
           (V2.mkState [V2.mkTask (u "1") (u "a") false (Some 7)] [] None V2.SortNone)
           (V2.mkTask (u "1") (u "a") true (Some 7))).
  simpl. left. reflexivity.
Defined.

Lemma filter_map_commute {A} (p : A -> bool) (f : A -> A) (l : list A) :
  (forall x, p (f x) = p x) -> filter p (map f l) = map f (filter p l).
Proof.
  intros H. induction l as [|x l IH]; [reflexivity|].
  cbn [map filter]. rewrite H. destruct (p x); cbn [map]; now rewrite IH.
Qed.

Lemma filter_filter {A} (p q : A -> bool) (l : list A) :
  filter p (filter q l) = filter (fun x => q x && p x) l.
Proof.
  induction l as [|x l IH]; [reflexivity|].
  cbn [filter]. destruct (q x); cbn [filter andb]; [|exact IH].
  destruct (p x); now rewrite IH.
Qed.

Lemma deleteTasks_commute (i j : JSString) (l : list V2.Task) :
  V2.deleteTasks i (V2.deleteTasks j l) = V2.deleteTasks j (V2.deleteTasks i l).
Proof.
  unfold V2.deleteTasks. rewrite !filter_filter. apply filter_ext.
  intros t. apply andb_comm.
Qed.

Lemma toggleTasks_deleteTasks (i j : JSString) (l : list V2.Task) :
  V2.toggleTasks i (V2.deleteTasks j l) = V2.deleteTasks j (V2.toggleTasks i l).
Proof.
  unfold V2.toggleTasks, V2.deleteTasks. symmetry. apply filter_map_commute.
  intros t. now destruct (unitsEqb (V2.id t) i).
Qed.

(** X3. Deleting is idempotent and deletes commute: deleting an id twice is
    deleting it once, and two ids can be deleted in either order. *)
Theorem deleteTask_idempotent (i j : JSString) (st : V2.State) :
  V2.deleteTask i (V2.deleteTask i st) = V2.deleteTask i st
  /\ V2.deleteTask i (V2.deleteTask j st) = V2.deleteTask j (V2.deleteTask i st).
Proof.
  unfold V2.deleteTask. cbn [V2.tasks V2.inputValue V2.selectedDate V2.sortBy].
  split; f_equal.
  - apply deleteTasks_absent. apply deleteTasks_gone.
  - apply deleteTasks_commute.
Qed.

(** X4. Toggles commute with each other and with deletes, whatever the ids,
    and a task toggled and then deleted is simply deleted. *)
Theorem toggleComplete_commutes (i j : JSString) (st : V2.State) :
  V2.toggleComplete i (V2.toggleComplete j st)
  = V2.toggleComplete j (V2.toggleComplete i st)
  /\ V2.toggleComplete i (V2.deleteTask j st)
     = V2.deleteTask j (V2.toggleComplete i st)
  /\ V2.deleteTask i (V2.toggleComplete i st) = V2.deleteTask i st.
Proof.
  unfold V2.toggleComplete, V2.deleteTask.
  cbn [V2.tasks V2.inputValue V2.selectedDate V2.sortBy].
  repeat split; f_equal.
  - unfold V2.toggleTasks. rewrite !map_map. apply map_ext. intros t.
    destruct (unitsEqb (V2.id t) j) eqn:Ej, (unitsEqb (V2.id t) i) eqn:Ei;
      cbn [V2.id]; rewrite ?Ei, ?Ej; reflexivity.
  - apply toggleTasks_deleteTasks.
  - rewrite <- toggleTasks_deleteTasks. apply toggleTasks_absent.
    apply deleteTasks_gone.
Qed.

(** X5. Deleting the task an Add has just appended undoes the Add, provided
    the id the Add gave it was new to the store. *)
Theorem deleteTask_undoes_addTask (now : Z) (st : V2.State) :
  trim (V2.inputValue st) <> [] ->
  ~ In (numberToString now) (map V2.id (V2.tasks st)) ->
  V2.tasks (V2.deleteTask (numberToString now) (V2.addTask now st)) = V2.tasks st.
Proof.
  intros Hin Hfresh. rewrite addTask_nonblank by assumption.
  cbn [V2.deleteTask V2.tasks]. unfold V2.deleteTasks. rewrite filter_app.
  cbn [filter V2.id]. rewrite unitsEqb_refl. cbn [negb]. rewrite app_nil_r.
  now apply deleteTasks_absent.
Qed.

Lemma deleteTask_undoes_addTask_witness :
  V2.tasks (V2.deleteTask (numberToString 1700000000000)
              (V2.addTask 1700000000000
                 (V2.mkState [V2.mkTask (u "1") (u "a") true None]
                    (u "b") (Some 9) V2.SortDeadline)))
  = [V2.mkTask (u "1") (u "a") true None].
Proof.
  apply (deleteTask_undoes_addTask 1700000000000
           (V2.mkState [V2.mkTask (u "1") (u "a") true None]
              (u "b") (Some 9) V2.SortDeadline)).
  - discriminate.
  - simpl. intros [H|[]]. discriminate.
Defined.

Lemma app_one_neq {A} (l : list A) (x : A) : l ++ [x] <> l.
Proof.
  intros H. apply (f_equal (@length A)) in H. rewrite length_app in H.
  simpl in H. lia.
Qed.

(** X6. A key press in the text field changes the task list exactly when
    the key is Enter and the trimmed input is not empty, and then it does
    what the Add button does; this holds in both versions. *)
Theorem handleKeyPress_Enter (key : JSString) (now : Z)
    (st1 : V1.State) (st2 : V2.State) :
  (V2.tasks (V2.handleKeyPress key now st2) <> V2.tasks st2
   <-> key = u "Enter" /\ trim (V2.inputValue st2) <> [])
  /\ (V1.tasks (V1.handleKeyPress key now st1) <> V1.tasks st1
      <-> key = u "Enter" /\ trim (V1.inputValue st1) <> [])
  /\ (key = u "Enter" ->
      V2.handleKeyPress key now st2 = V2.addTask now st2
      /\ V1.handleKeyPress key now st1 = V1.addTask now st1)
  /\ (key <> u "Enter" ->
      V2.handleKeyPress key now st2 = st2 /\ V1.handleKeyPress key now st1 = st1).
Proof.
  unfold V2.handleKeyPress, V1.handleKeyPress.
  destruct (unitsEqb key (u "Enter")) eqn:E.
  - apply unitsEqb_eq in E. split; [|split; [|split]].
    + split.
      * intros H. split; [assumption|]. intros Hb. apply H.
        unfold V2.addTask. now rewrite Hb.
      * intros [_ H]. rewrite addTask_nonblank by assumption. cbn [V2.tasks].
        apply app_one_neq.
    + split.
      * intros H. split; [assumption|]. intros Hb. apply H.
        unfold V1.addTask. now rewrite Hb.
      * intros [_ H]. unfold V1.addTask.
        destruct (trim (V1.inputValue st1)); [contradiction|].
        cbn [isEmptyString V1.tasks]. apply app_one_neq.
    + intros _. split; reflexivity.
    + intros H. contradiction.
  - apply unitsEqb_neq in E.
    split; [|split; [|split]].
    + split; [intros H; now contradiction H|intros [H _]; contradiction].
    + split; [intros H; now contradiction H|intros [H _]; contradiction].
    + intros H. contradiction.
    + intros _. split; reflexivity.
Qed.

Lemma withTasks_tasks (st : V2.State) : withTasks (V2.tasks st) st = st.
Proof. now destruct st. Qed.

Lemma step_withTasks_app (a : Action) (st : V2.State) (l1 l2 : list V2.Task) :
  V2.step (withTasks (l1 ++ l2) st) a
  = withTasks (keptTasks [a] l1 ++ V2.tasks (V2.step (withTasks l2 st) a))
      (V2.step (withTasks l2 st) a).
Proof.
  destruct a as [v|d|now|i|i]; cbn [V2.step keptTasks]; try reflexivity.
  - unfold V2.addTask. cbn [withTasks V2.inputValue V2.tasks V2.selectedDate V2.sortBy].
    destruct (isEmptyString (trim (V2.inputValue st))); [reflexivity|].
    unfold withTasks. cbn. now rewrite app_assoc.
  - unfold V2.toggleComplete, withTasks. cbn. f_equal.
    unfold V2.toggleTasks. apply map_app.
  - unfold V2.deleteTask, withTasks. cbn. f_equal.
    unfold V2.deleteTasks. apply filter_app.
Qed.

Lemma keptTasks_cons (a : Action) (acts : list Action) (l : list V2.Task) :
  keptTasks (a :: acts) l = keptTasks acts (keptTasks [a] l).
Proof. now destruct a. Qed.

Lemma run_withTasks_app (acts : list Action) (st : V2.State) (l1 l2 : list V2.Task) :
  V2.run acts (withTasks (l1 ++ l2) st)
  = withTasks (keptTasks acts l1 ++ V2.tasks (V2.run acts (withTasks l2 st)))
      (V2.run acts (withTasks l2 st)).
Proof.
  revert st l1 l2; induction acts as [|a acts IH]; intros st l1 l2.
  - reflexivity.
  - cbn [V2.run fold_left]. rewrite step_withTasks_app.
    set (st' := V2.step (withTasks l2 st) a).
    fold (V2.run acts (withTasks (keptTasks [a] l1 ++ V2.tasks st') st')).
    rewrite IH, withTasks_tasks. fold (V2.run acts st').
    now rewrite (keptTasks_cons a acts l1).
Qed.

Lemma keptTasks_ids (acts : list Action) (l : list V2.Task) :
  map V2.id (keptTasks acts l)
  = filter (fun i => negb (existsb (unitsEqb i) (deletedIds acts))) (map V2.id l).
Proof.
  revert l; induction acts as [|a acts IH]; intros l.
  - cbn [keptTasks deletedIds existsb negb]. symmetry.
    induction (map V2.id l) as [|x r IHr]; [reflexivity|]. cbn [filter]. now rewrite IHr.
  - destruct a as [v|d|now|i|i]; cbn [keptTasks deletedIds]; try apply IH.
    + rewrite IH, toggleTasks_ids. reflexivity.
    + rewrite IH, deleteTasks_ids, filter_filter. apply filter_ext.
      intros x. cbn [existsb]. now rewrite negb_orb.
Qed.

(** X7. A run of actions never reorders tasks.  The store it ends with is
    the tasks of the start that no Delete of the run named, in their order
    and with their ids, followed by what the same run leaves when started
    from the empty list: the tasks it added, in the order of their Adds. *)
Theorem run_keeps_insertion_order (acts : list Action) (st : V2.State) :
  V2.tasks (V2.run acts st)
  = keptTasks acts (V2.tasks st) ++ V2.tasks (V2.run acts (withTasks [] st))
  /\ map V2.id (keptTasks acts (V2.tasks st))
     = filter (fun i => negb (existsb (unitsEqb i) (deletedIds acts)))
         (map V2.id (V2.tasks st))
  /\ (length (keptTasks acts (V2.tasks st)) <= length (V2.tasks st))%nat.
Proof.
  repeat split.
  - pose proof (run_withTasks_app acts st (V2.tasks st) []) as H.
    rewrite app_nil_r, withTasks_tasks in H. now rewrite H.
  - apply keptTasks_ids.
  - rewrite <- (length_map V2.id), keptTasks_ids, <- (length_map V2.id (V2.tasks st)).
    apply filter_length_le.
Qed.

(** ** The view and the footer *)

Lemma filter_perm {A} (p : A -> bool) (l l' : list A) :
  Permutation l l' -> Permutation (filter p l) (filter p l').
Proof.
  induction 1 as [|x l l' H IH|x y l|l l' l'' H1 IH1 H2 IH2]; cbn [filter].
  - constructor.
  - destruct (p x); [now constructor|assumption].
  - destruct (p x), (p y); try reflexivity. apply perm_swap.
  - now transitivity (filter p l').
Qed.

Lemma filter_none {A} (l : list A) : filter (fun _ => false) l = [].
Proof. induction l; [reflexivity|assumption]. Qed.

Lemma filter_split_perm {A} (p : A -> bool) (l : list A) :
  Permutation l (filter p l ++ filter (fun x => negb (p x)) l).
Proof.
  induction l as [|x l IH]; [constructor|]. cbn [filter].
  destruct (p x); cbn [negb app]; [now constructor|].
  now apply Permutation_cons_app.
Qed.

Lemma StronglySorted_filter {A} (R : A -> A -> Prop) (p : A -> bool) (l : list A) :
  StronglySorted R l -> StronglySorted R (filter p l).
Proof.
  induction 1 as [|x l Hs IH Hx]; cbn [filter]; [constructor|].
  destruct (p x); [|assumption]. constructor; [assumption|].
  rewrite Forall_forall in *. intros y Hy. apply filter_In in Hy as [Hy _]. auto.
Qed.

Lemma StronglySorted_app_intro {A} (R : A -> A -> Prop) (l1 l2 : list A) :
  StronglySorted R l1 -> StronglySorted R l2 ->
  (forall a b, In a l1 -> In b l2 -> R a b) ->
  StronglySorted R (l1 ++ l2).
Proof.
  induction 1 as [|x l Hs IH Hx]; intros H2 H; cbn [app]; [assumption|].
  constructor.
  - apply IH; [assumption|]. intros a b Ha Hb. apply H; [now right|assumption].
  - rewrite Forall_forall in *. intros y Hy. apply in_app_iff in Hy as [Hy|Hy].
    + now apply Hx.
    + apply H; [now left|assumption].
Qed.

(** The comparator of the view is consistent, so its sort is the stable
    sort by [deadlineOrder]. *)
Lemma sortTasks_StableSortOf (l : list V2.Task) :
  StableSortOf V2.deadlineOrder l (arraySort V2.compareTasks l).
Proof.
  apply arraySort_StableSortOf.
  - exact compareTasks_sign.
  - exact deadlineOrder_antisym.
  - exact deadlineOrder_trans.
Qed.

Lemma sortTasks_unique (l l' : list V2.Task) :
  StableSortOf V2.deadlineOrder l l' -> l' = arraySort V2.compareTasks l.
Proof.
  apply (stable_sort_unique _ V2.deadlineOrder).
  - exact compareTasks_sign.
  - exact deadlineOrder_antisym.
  - exact deadlineOrder_trans.
Qed.

Lemma getSortedTasks_perm (st : V2.State) :
  Permutation (V2.tasks st) (V2.getSortedTasks st).
Proof.
  unfold V2.getSortedTasks. destruct (V2.sortBy st); [reflexivity|].
  apply (sso_perm _ _ _ (sortTasks_StableSortOf _)).
Qed.

Lemma tied_same_completed (x y : V2.Task) :
  tiedWith V2.deadlineOrder x y = true -> V2.completed y = V2.completed x.
Proof.
  unfold tiedWith, V2.deadlineOrder.
  destruct (V2.completed x), (V2.completed y); try reflexivity; discriminate.
Qed.

Lemma toggleTasks_unique (l : list V2.Task) (t : V2.Task) :
  NoDup (map V2.id l) -> In t l ->
  exists l1 l2,
    l = l1 ++ t :: l2
    /\ V2.toggleTasks (V2.id t) l
       = l1 ++ V2.mkTask (V2.id t) (V2.text t) (negb (V2.completed t))
                 (V2.dueDate t) :: l2.
Proof.
  induction l as [|x l IH]; intros ND Hin; [contradiction|].
  cbn [map] in ND. inversion ND as [|? ? Hnot ND']; subst.
  destruct Hin as [->|Hin].
  - exists [], l. split; [reflexivity|]. cbn [V2.toggleTasks map app].
    rewrite unitsEqb_refl. f_equal. now apply toggleTasks_absent.
  - destruct (IH ND' Hin) as (l1 & l2 & -> & E).
    exists (x :: l1), l2. split; [reflexivity|].
    change (V2.toggleTasks (V2.id t) (x :: l1 ++ t :: l2))
      with ((if unitsEqb (V2.id x) (V2.id t)
             then V2.mkTask (V2.id x) (V2.text x) (negb (V2.completed x)) (V2.dueDate x)
             else x) :: V2.toggleTasks (V2.id t) (l1 ++ t :: l2)).
    rewrite E. destruct (unitsEqb (V2.id x) (V2.id t)) eqn:Ex; [|reflexivity].
    exfalso. apply unitsEqb_eq in Ex. apply Hnot. rewrite Ex.
    apply in_map. apply in_or_app. right. now left.
Qed.

(** X8. The two counts of the footer add up to the number of tasks and do
    not depend on the sort mode.  An Add on a non-blank input raises the
    active count by one; in a store of distinct ids, the toggle of an
    active task moves one from the active count to the completed count,
    and the toggle of a completed task moves one back. *)
Theorem footer_counts (st : V2.State) :
  (V2.activeCount (V2.tasks st) + V2.completedCount (V2.tasks st)
   = length (V2.tasks st))%nat
  /\ V2.activeCount (V2.getSortedTasks st) = V2.activeCount (V2.tasks st)
  /\ V2.completedCount (V2.getSortedTasks st) = V2.completedCount (V2.tasks st)
  /\ (forall now, trim (V2.inputValue st) <> [] ->
        V2.activeCount (V2.tasks (V2.addTask now st))
        = S (V2.activeCount (V2.tasks st))
        /\ V2.completedCount (V2.tasks (V2.addTask now st))
           = V2.completedCount (V2.tasks st))
  /\ (forall t, NoDup (map V2.id (V2.tasks st)) -> In t (V2.tasks st) ->
        let st' := V2.toggleComplete (V2.id t) st in
        if V2.completed t
        then V2.activeCount (V2.tasks st') = S (V2.activeCount (V2.tasks st))
             /\ S (V2.completedCount (V2.tasks st')) = V2.completedCount (V2.tasks st)
        else S (V2.activeCount (V2.tasks st')) = V2.activeCount (V2.tasks st)
             /\ V2.completedCount (V2.tasks st') = S (V2.completedCount (V2.tasks st))).
Proof.
  unfold V2.activeCount, V2.completedCount.
  split; [|split; [|split; [|split]]].
  - induction (V2.tasks st) as [|t l IH]; [reflexivity|]. cbn [filter].
    destruct (V2.completed t); cbn [negb length]; lia.
  - symmetry. apply Permutation_length, filter_perm, getSortedTasks_perm.
  - symmetry. apply Permutation_length, filter_perm, getSortedTasks_perm.
  - intros now H. rewrite addTask_nonblank by assumption. cbn [V2.tasks].
    rewrite !filter_app, !length_app. cbn. lia.
  - intros t ND Hin. cbn zeta. cbn [V2.toggleComplete V2.tasks].
    destruct (toggleTasks_unique _ t ND Hin) as (l1 & l2 & E1 & E2).
    rewrite E2, E1, !filter_app, !length_app. cbn [filter V2.completed].
    destruct (V2.completed t); cbn [negb length]; lia.
Qed.

(** X9. The sorted view is a rearrangement of the store in either mode: the
    same tasks, each as often as in the store.  With the mode on none it is
    the store itself, and sorting a view again gives that view. *)
Theorem getSortedTasks_rearranges (st : V2.State) :
  Permutation (V2.tasks st) (V2.getSortedTasks st)
  /\ length (V2.getSortedTasks st) = length (V2.tasks st)
  /\ (forall t, In t (V2.getSortedTasks st) <-> In t (V2.tasks st))
  /\ (V2.sortBy st = V2.SortNone -> V2.getSortedTasks st = V2.tasks st)
  /\ V2.getSortedTasks (withTasks (V2.getSortedTasks st) st) = V2.getSortedTasks st.
Proof.
  pose proof (getSortedTasks_perm st) as P.
  split; [exact P|]. split; [symmetry; now apply Permutation_length|].
  split; [|split].
  - intros t. split; intros H.
    + now apply (Permutation_in _ (Permutation_sym P)).
    + now apply (Permutation_in _ P).
  - unfold V2.getSortedTasks. now intros ->.
  - unfold V2.getSortedTasks. cbn [withTasks V2.sortBy V2.tasks].
    destruct (V2.sortBy st); [reflexivity|].
    symmetry. apply sortTasks_unique.
    destruct (sortTasks_StableSortOf (V2.tasks st)) as [Hp Hs Hst].
    split; [reflexivity|assumption|reflexivity].
Qed.

(** X10. In the deadline view the incomplete tasks come first and the
    completed ones after them: the view is the view of the incomplete tasks
    followed by the view of the completed tasks. *)
Theorem deadline_view_blocks (st : V2.State) :
  V2.sortBy st = V2.SortDeadline ->
  V2.getSortedTasks st
  = V2.getSortedTasks
      (withTasks (filter (fun t => negb (V2.completed t)) (V2.tasks st)) st)
    ++ V2.getSortedTasks
         (withTasks (filter (fun t => V2.completed t) (V2.tasks st)) st).
Proof.
  intros Hmode. unfold V2.getSortedTasks.
  cbn [withTasks V2.sortBy V2.tasks]. rewrite Hmode.
  set (l := V2.tasks st).
  set (inc := filter (fun t => negb (V2.completed t)) l).
  set (com := filter (fun t => V2.completed t) l).
  symmetry. apply sortTasks_unique.
  destruct (sortTasks_StableSortOf inc) as [Pi Si Ti].
  destruct (sortTasks_StableSortOf com) as [Pc Sc Tc].
  split.
  - transitivity (inc ++ com); [|now apply Permutation_app].
    unfold inc, com.
    rewrite (filter_ext (fun t => V2.completed t)
               (fun t => negb (negb (V2.completed t))))
      by (intros t; now rewrite negb_involutive).
    apply filter_split_perm.
  - apply StronglySorted_app_intro; [assumption|assumption|].
    intros a b Ha Hb.
    apply (Permutation_in _ (Permutation_sym Pi)) in Ha.
    apply (Permutation_in _ (Permutation_sym Pc)) in Hb.
    apply filter_In in Ha as [_ Ha]. apply filter_In in Hb as [_ Hb].
    unfold notAfter, V2.deadlineOrder.
    destruct (V2.completed a); [discriminate|]. rewrite Hb. discriminate.
  - intros x. rewrite filter_app, Ti, Tc. unfold inc, com.
    rewrite !filter_filter.
    destruct (V2.completed x) eqn:Ex.
    + rewrite (filter_ext_in _ (fun _ => false)).
      2:{ intros y _. destruct (tiedWith V2.deadlineOrder x y) eqn:T;
            [|apply andb_false_r].
          apply tied_same_completed in T. now rewrite T, Ex. }
      rewrite (filter_ext_in (fun y => V2.completed y && tiedWith V2.deadlineOrder x y)
                 (tiedWith V2.deadlineOrder x)).
      2:{ intros y _. destruct (tiedWith V2.deadlineOrder x y) eqn:T;
            [|apply andb_false_r].
          apply tied_same_completed in T. now rewrite T, Ex. }
      now rewrite filter_none.
    + rewrite (filter_ext_in (fun y => negb (V2.completed y)
                                       && tiedWith V2.deadlineOrder x y)
                 (tiedWith V2.deadlineOrder x)).
      2:{ intros y _. destruct (tiedWith V2.deadlineOrder x y) eqn:T;
            [|apply andb_false_r].
          apply tied_same_completed in T. now rewrite T, Ex. }
      rewrite (filter_ext_in (fun y => V2.completed y && tiedWith V2.deadlineOrder x y)
                 (fun _ => false)).
      2:{ intros y _. destruct (tiedWith V2.deadlineOrder x y) eqn:T;
            [|apply andb_false_r].
          apply tied_same_completed in T. now rewrite T, Ex. }
      now rewrite filter_none, app_nil_r.
Qed.

Lemma deadline_view_blocks_witness :
  V2.getSortedTasks exampleStore
  = V2.getSortedTasks
      (withTasks (filter (fun t => negb (V2.completed t)) (V2.tasks exampleStore))
         exampleStore)
    ++ V2.getSortedTasks
         (withTasks (filter (fun t => V2.completed t) (V2.tasks exampleStore))
            exampleStore).
Proof. apply (deadline_view_blocks exampleStore). reflexivity. Defined.


(** The overdue flag, read on the starts of the two days. *)
Lemma isOverdue_starts (tz : TimeZone) (now : Z) (task : V2.Task) :
  V2.isOverdue tz now task = true
  <-> exists due sd sn,
        V2.dueDate task = Some due /\ V2.completed task = false
        /\ V2.startOfDay tz due = Some sd /\ V2.startOfDay tz now = Some sn
        /\ sd < sn.
Proof.
  unfold V2.isOverdue.
  destruct (V2.dueDate task) as [due|];
    [|split; [discriminate|intros (d & sd & sn & E & _); discriminate]].
  destruct (V2.completed task);
    [split; [discriminate|intros (d & sd & sn & _ & E & _); discriminate]|].
  split.
  - destruct (V2.startOfDay tz due) as [sd|] eqn:Ed; [|discriminate].
    destruct (V2.startOfDay tz now) as [sn|] eqn:En; [|discriminate].
    cbn [V2.isBefore]. rewrite Z.ltb_lt. intros H.
    exists due, sd, sn. repeat split; assumption.
  - intros (d & sd & sn & E & _ & Ed & En & H). injection E as <-.
    rewrite Ed, En. cbn [V2.isBefore]. now apply Z.ltb_lt.
Qed.

(** In a regular zone a later date has a later start of day, or the same. *)
Lemma startOfDay_mono (tz : TimeZone) (a b sa sb : Z) :
  RegularZone tz -> a <= b ->
  V2.startOfDay tz a = Some sa -> V2.startOfDay tz b = Some sb -> sa <= sb.
Proof.
  intros R Hab Ea Eb.
  rewrite startOfDay_localMidnight in Ea, Eb.
  apply TimeClip_Some in Ea as [-> _]. apply TimeClip_Some in Eb as [-> _].
  apply localMidnight_le; [apply (rz_offsets _ R)|now apply (rz_days _ R)].
Qed.

Lemma not_None_Some {A : Type} (o : option A) : o <> None -> exists x, o = Some x.
Proof. destruct o as [x|]; [now exists x|congruence]. Qed.

(** In a regular zone a date is before the start of a day exactly when the
    start of its own day is. *)
Lemma before_start_iff (tz : TimeZone) (date now sd sn : Z) :
  RegularZone tz ->
  V2.startOfDay tz date = Some sd -> V2.startOfDay tz now = Some sn ->
  (date < sn <-> sd < sn).
Proof.
  intros R Ed En.
  rewrite startOfDay_localMidnight in Ed, En.
  apply TimeClip_Some in Ed as [-> _]. apply TimeClip_Some in En as [-> _].
  destruct (rz_start _ R date) as [Hle _].
  destruct (rz_start _ R now) as [_ Hday].
  split; [lia|].
  intros H. apply localMidnight_lt in H; [|apply (rz_offsets _ R)].
  destruct (Z_lt_le_dec date (localMidnight tz (V2.calendarDay tz now)))
    as [|Hge]; [assumption|].
  apply (rz_days _ R) in Hge. lia.
Qed.

(** X11. In the deadline view the overdue tasks come first: whatever stands
    before an overdue task is overdue as well.  The zone is a regular one
    (daylight saving changes included), and the start of the day on which
    the earlier task is due is a date. *)
Theorem deadline_view_overdue_first (tz : TimeZone) (now : Z) (st : V2.State)
    (a b : V2.Task) (l1 l2 l3 : list V2.Task) :
  RegularZone tz ->
  (forall d, V2.dueDate a = Some d -> V2.startOfDay tz d <> None) ->
  V2.sortBy st = V2.SortDeadline ->
  V2.getSortedTasks st = l1 ++ a :: l2 ++ b :: l3 ->
  V2.isOverdue tz now b = true ->
  V2.isOverdue tz now a = true.
Proof.
  intros R Hva Hmode E Hb.
  assert (Hab : notAfter V2.deadlineOrder a b).
  { pose proof (sso_sorted _ _ _ (sortTasks_StableSortOf (V2.tasks st))) as Hs.
    unfold V2.getSortedTasks in E. rewrite Hmode in E. rewrite E in Hs.
    apply StronglySorted_suffix in Hs.
    inversion Hs as [|? ? _ F]; subst. rewrite Forall_forall in F.
    apply F. apply in_or_app. right. now left. }
  apply isOverdue_starts in Hb as (db & sb & sn & Edb & Ecb & Esb & Esn & Hlt).
  apply isOverdue_starts.
  unfold notAfter, V2.deadlineOrder in Hab. rewrite Ecb, Edb in Hab.
  destruct (V2.completed a); [now contradiction Hab|].
  destruct (V2.dueDate a) as [da|]; [|now contradiction Hab].
  apply Z.compare_le_iff in Hab.
  destruct (not_None_Some _ (Hva da eq_refl)) as (sa & Esa).
  exists da, sa, sn. repeat split; try assumption.
  pose proof (startOfDay_mono tz da db sa sb R Hab Esa Esb). lia.
Qed.

(** Two tasks due on the day before the clocks were set back, seen on the
    day after. *)
Lemma deadline_view_overdue_first_witness :
  V2.isOverdue easternFall2023 1699331400000
    (V2.mkTask (u "2") (u "evening") false (Some 1699156799999))
  = true.
Proof.
  apply (deadline_view_overdue_first easternFall2023 1699331400000
           (V2.mkState
              [V2.mkTask (u "1") (u "night") false (Some 1699164000000);
               V2.mkTask (u "2") (u "evening") false (Some 1699156799999)]
              [] None V2.SortDeadline)
           (V2.mkTask (u "2") (u "evening") false (Some 1699156799999))
           (V2.mkTask (u "1") (u "night") false (Some 1699164000000))
           [] [] []).
  - exact easternFall2023_regular.
  - intros d E. injection E as <-. vm_compute. discriminate.
  - reflexivity.
  - reflexivity.
  - reflexivity.
Defined.



(** X13. The calendar refuses exactly the dates that would make a task
    overdue on the spot: in a regular zone, and for dates whose start of
    day is a date, a date is disabled at a clock reading if and only if an
    incomplete task due on it is overdue at that reading, that is, if its
    calendar day is before the current one.  So a task added with a date
    the calendar offers at that moment is not overdue at that moment. *)
Theorem dateDisabled_iff_overdue (tz : TimeZone) (now date : Z) (i x : JSString) :
  RegularZone tz ->
  V2.startOfDay tz now <> None ->
  V2.startOfDay tz date <> None ->
  V2.dateDisabled tz now date
  = V2.isOverdue tz now (V2.mkTask i x false (Some date))
  /\ (V2.dateDisabled tz now date = true
      <-> V2.calendarDay tz date < V2.calendarDay tz now)
  /\ (forall st, V2.selectedDate st = Some date ->
        V2.dateDisabled tz now date = false ->
        Forall (fun t => V2.isOverdue tz now t = false) (V2.tasks st) ->
        Forall (fun t => V2.isOverdue tz now t = false)
          (V2.tasks (V2.addTask now st))).
Proof.
  intros R Hn Hd.
  destruct (not_None_Some _ Hn) as (sn & En).
  destruct (not_None_Some _ Hd) as (sd & Ed).
  assert (E : forall j y, V2.dateDisabled tz now date
              = V2.isOverdue tz now (V2.mkTask j y false (Some date))).
  { intros j y. unfold V2.dateDisabled, V2.isOverdue. cbn [V2.dueDate V2.completed].
    rewrite En, Ed. cbn [V2.isBefore].
    apply eq_true_iff_eq. rewrite !Z.ltb_lt.
    exact (before_start_iff tz date now sd sn R Ed En). }
  split; [apply E|]. split.
  - rewrite (E i x). unfold V2.isOverdue. cbn [V2.dueDate V2.completed].
    exact (isBefore_days tz date now (rz_offsets _ R) Hd Hn).
  - intros st Hsel Hdis Hall. unfold V2.addTask.
    destruct (isEmptyString (trim (V2.inputValue st))); [exact Hall|].
    cbn [V2.tasks]. apply Forall_app. split; [exact Hall|].
    constructor; [|constructor]. rewrite Hsel, <- E. exact Hdis.
Qed.

(** On the evening of the day on which the clocks were set back, the
    calendar still offers that day, whose local midnight was under the
    earlier offset. *)
Lemma dateDisabled_iff_overdue_witness :
  V2.dateDisabled easternFall2023 1699245000000 1699156800000
  = V2.isOverdue easternFall2023 1699245000000
      (V2.mkTask (u "1") (u "a") false (Some 1699156800000))
  /\ V2.dateDisabled easternFall2023 1699245000000 1699156800000 = false.
Proof.
  split; [|reflexivity].
  refine (proj1 (dateDisabled_iff_overdue easternFall2023 1699245000000
                   1699156800000 (u "1") (u "a") _ _ _)).
  - exact easternFall2023_regular.
  - vm_compute. discriminate.
  - vm_compute. discriminate.
Defined.

(** X14. Deleting a task takes it out of the view and leaves the other rows
    in their order: the view of the store after a delete is the view before
    it without the rows of that id, in either sort mode. *)
Theorem deleteTask_in_view (i : JSString) (st : V2.State) :
  V2.getSortedTasks (V2.deleteTask i st) = V2.deleteTasks i (V2.getSortedTasks st).
Proof.
  unfold V2.getSortedTasks. cbn [V2.deleteTask V2.sortBy V2.tasks].
  destruct (V2.sortBy st); [reflexivity|].
  symmetry. apply sortTasks_unique.
  destruct (sortTasks_StableSortOf (V2.tasks st)) as [Hp Hs Hst].
  unfold V2.deleteTasks. split.
  - now apply filter_perm.
  - now apply StronglySorted_filter.
  - intros x. rewrite !filter_filter.
    rewrite (filter_ext _ (fun y => tiedWith V2.deadlineOrder x y
                                    && negb (unitsEqb (V2.id y) i)))
      by (intros y; apply andb_comm).
    rewrite <- filter_filter, Hst, filter_filter.
    apply filter_ext. intros y. apply andb_comm.
Qed.

(** ** The stored text across versions *)

Section PrintedArray.
Context {A : Type} (print : A -> JSString) (val : A -> JValue) (k : nat).

(** Each element is printed as an object that [parseValue] reads back
    with [k] units of fuel. *)
Hypothesis print_parse :
  forall a rest, parseValue k (print a ++ rest) = POk (val a) rest.
Hypothesis print_head : forall a, exists r, print a = 123%N :: r.

Lemma parseElements_printed (l : list A) (a : A) (f : nat) (rest : JSString) :
  (length l + k + 1 <= f)%nat ->
  parseElements f (joinWith [44%N] (map print (a :: l)) ++ 93%N :: rest)
  = POk (map val (a :: l)) rest.
Proof.
  revert a f; induction l as [|a' l IH]; intros a f Hf.
  - destruct f as [|f]; [lia|]. cbn [map joinWith parseElements].
    unfold elementsStep.
    rewrite (parseValue_fuel_mono k f _ (val a) (93%N :: rest));
      [reflexivity|simpl in Hf; lia|apply print_parse].
  - destruct f as [|f]; [lia|].
    change (joinWith [44%N] (map print (a :: a' :: l)))
      with (print a ++ [44%N] ++ joinWith [44%N] (map print (a' :: l))).
    rewrite <- !app_assoc. cbn [app parseElements]. unfold elementsStep.
    rewrite (parseValue_fuel_mono k f _ (val a)
               (44%N :: joinWith [44%N] (map print (a' :: l)) ++ 93%N :: rest));
      [|simpl in Hf; lia|apply print_parse].
    rewrite skipWs_comma. change ((44 =? 44)%N) with true. cbv iota.
    rewrite IH by (simpl in Hf; lia). reflexivity.
Qed.

Lemma JSON_parse_printed (l : list A) :
  JSON_parse ([91%N] ++ joinWith [44%N] (map print l) ++ [93%N])
  = Some (JArray (map val l)).
Proof.
  destruct l as [|a l]; [reflexivity|].
  unfold JSON_parse.
  assert (E : parseValue (S (length l + k + 1))
                ([91%N] ++ joinWith [44%N] (map print (a :: l)) ++ [93%N])
              = POk (JArray (map val (a :: l))) []).
  { cbn [app parseValue]. unfold valueStep. cbn [skipWs].
    change (isJSONWhiteSpace 91) with false. cbv iota.
    change ((91 =? 123)%N) with false. change ((91 =? 91)%N) with true. cbv iota.
    destruct (print_head a) as (r & Er).
    assert (Es : exists r', joinWith [44%N] (map print (a :: l)) ++ [93%N]
                            = 123%N :: r').
    { destruct l; cbn [map joinWith]; rewrite Er; cbn [app]; eexists; reflexivity. }
    destruct Es as (r' & Es). rewrite Es. cbn [skipWs].
    change (isJSONWhiteSpace 123) with false. cbv iota.
    change ((123 =? 93)%N) with false. cbv iota.
    rewrite <- Es. rewrite parseElements_printed by lia. reflexivity. }
  apply parseValue_at_parseFuel in E. rewrite E. reflexivity.
Qed.
End PrintedArray.

Lemma parseValue_stringifyTask1 (t : V1.Task) (rest : JSString) :
  parseValue 5 (V1.stringifyTask t ++ rest) = POk (taskJSON1 t) rest.
Proof.
  unfold V1.stringifyTask, taskJSON1.
  rewrite <- !app_assoc. cbn [app].
  cbn [parseValue]. rewrite valueStep_object.
  cbn [parseMembers]. rewrite membersStep_member by (intros; reflexivity).
  rewrite parseValue_string, skipWs_comma.
  change ((44 =? 44)%N) with true. cbv iota.
  rewrite membersStep_member by (intros; reflexivity).
  rewrite parseValue_string, skipWs_comma.
  change ((44 =? 44)%N) with true. cbv iota.
  rewrite membersStep_member by (intros; reflexivity).
  rewrite parseValue_bool, skipWs_brace.
  change ((125 =? 44)%N) with false. change ((125 =? 125)%N) with true.
  reflexivity.
Qed.

Lemma JSON_parse_stringify1 (l : list V1.Task) :
  JSON_parse (V1.JSON_stringify l) = Some (JArray (map taskJSON1 l)).
Proof.
  apply (JSON_parse_printed V1.stringifyTask taskJSON1 5).
  - apply parseValue_stringifyTask1.
  - intros t. unfold V1.stringifyTask. cbn [app]. eexists. reflexivity.
Qed.

Lemma loadTasks1_of_parse (s : JSString) (v : JValue) :
  JSON_parse s = Some v -> V1.loadTasks (Some s) = Normal (mkMounted v []).
Proof.
  intros H. unfold V1.loadTasks, V1.loadBody.
  destruct s as [|c s]; [discriminate|]. cbn [isEmptyString]. now rewrite H.
Qed.

Lemma asTask1_taskJSON1 (t : V1.Task) : V1.asTask (taskJSON1 t) = Some t.
Proof. now destruct t. Qed.

Lemma asTask1_taskJSON (t : V2.Task) : V1.asTask (taskJSON t) = Some (forgetDate t).
Proof. destruct t as [i x c [d|]]; reflexivity. Qed.

Lemma withDate_taskJSON1 (t : V1.Task) :
  V2.withDate (taskJSON1 t) = Normal (V2.mkTaskWithDate (taskJSON1 t) None).
Proof. reflexivity. Qed.

Lemma asTask_taskJSON1 (t : V1.Task) :
  V2.asTask (V2.mkTaskWithDate (taskJSON1 t) None) = Some (undated t).
Proof. now destruct t. Qed.

(** X15. Version 1 reads back what it saved: the load effect on the text of
    the save effect raises nothing, logs nothing and sets the state to an
    array of as many objects, each of them the task that was written, with
    its id, text and completion flag. *)
Theorem save_load_roundtrip_v1 (l : list V1.Task) :
  exists vs,
    V1.loadTasks (Some (V1.saveTasks l)) = Normal (mkMounted (JArray vs) [])
    /\ length vs = length l
    /\ map V1.asTask vs = map Some l.
Proof.
  exists (map taskJSON1 l). repeat split.
  - apply loadTasks1_of_parse. apply JSON_parse_stringify1.
  - apply length_map.
  - rewrite map_map. apply map_ext. apply asTask1_taskJSON1.
Qed.

(** X16. The two versions read each other's stored text, and neither load
    raises or logs anything.  Version 2 loads what version 1 saved as the
    same tasks without due dates.  Version 1 puts in its state what it
    parses from the text version 2 saved: one object per task, in order,
    with the id, the text and the completed flag of the task and, for a
    dated task, a [dueDate] member that holds the ISO text of the date;
    version 1 keeps that member on the object and never reads it. *)
Theorem versions_share_storage (l1 : list V1.Task) (l2 : list V2.Task) :
  (exists loaded,
      V2.loadTasks (Some (V1.saveTasks l1)) = Normal (mkMounted loaded [])
      /\ map V2.asTask loaded = map (fun t => Some (undated t)) l1)
  /\ V1.loadTasks (Some (V2.saveTasks l2))
     = Normal (mkMounted (JArray (map taskJSON l2)) [])
  /\ Forall (fun t =>
       V1.asTask (taskJSON t) = Some (forgetDate t)
       /\ getProp (u "dueDate") (taskJSON t)
          = match V2.dueDate t with
            | Some d => Some (JString (toISOString d))
            | None => None
            end) l2.
Proof.
  split; [|split].
  - exists (map (fun t => V2.mkTaskWithDate (taskJSON1 t) None) l1). split.
    + rewrite loadTasks_of_body by (unfold V1.saveTasks, V1.JSON_stringify; discriminate).
      unfold V2.loadBody, V1.saveTasks. rewrite JSON_parse_stringify1.
      assert (E : mapC V2.withDate (map taskJSON1 l1)
                  = Normal (map (fun t => V2.mkTaskWithDate (taskJSON1 t) None) l1)).
      { induction l1 as [|t l IH]; [reflexivity|].
        cbn [map mapC]. rewrite withDate_taskJSON1, IH. reflexivity. }
      now rewrite E.
    + rewrite map_map. apply map_ext. apply asTask_taskJSON1.
  - apply loadTasks1_of_parse. apply JSON_parse_stringify.
  - apply Forall_forall. intros t _. split.
    + apply asTask1_taskJSON.
    + unfold taskJSON. destruct (V2.dueDate t); reflexivity.
Qed.

Lemma withDate_taskShaped (v : JValue) :
  V2.taskShaped v = true ->
  exists o, V2.withDate v = Normal o /\ V2.spreadOf o = v
            /\ (V2.dateOf o = None
                \/ exists s, s <> [] /\ getProp (u "dueDate") v = Some (JString s)
                             /\ V2.dateOf o = Some (JString s)).
Proof.
  unfold V2.taskShaped, V2.withDate. destruct v as [| | | | |ms]; try discriminate.
  intros H.
  destruct (getProp (u "dueDate") (JObject ms)) as [d|] eqn:Ed.
  - assert (Hd : exists s, d = JString s).
    { destruct (getProp (u "id") (JObject ms)) as [[]|]; try discriminate.
      destruct (getProp (u "text") (JObject ms)) as [[]|]; try discriminate.
      destruct (getProp (u "completed") (JObject ms)) as [[]|]; try discriminate.
      destruct d; try discriminate. eexists. reflexivity. }
    destruct Hd as (s & ->). cbn [truthy toPrimitiveThrows].
    destruct s as [|c r]; cbn [isEmptyString negb].
    + eexists. repeat split. now left.
    + eexists. repeat split. right. exists (c :: r). repeat split. discriminate.
  - cbn [truthy]. eexists. repeat split. now left.
Qed.

Lemma mapC_withDate_shaped (l : list JValue) :
  forallb V2.taskShaped l = true ->
  exists loaded, mapC V2.withDate l = Normal loaded /\ map V2.spreadOf loaded = l.
Proof.
  induction l as [|v l IH]; intros H.
  - exists []. split; reflexivity.
  - cbn [forallb] in H. apply andb_true_iff in H as [Hv Hl].
    destruct (withDate_taskShaped v Hv) as (o & Eo & Es & _).
    destruct (IH Hl) as (os & Eos & Ems).
    exists (o :: os). cbn [mapC map]. rewrite Eo, Eos. cbn [bindC].
    split; [reflexivity|]. now rewrite Es, Ems.
Qed.

(** X17. Content of the expected shape is never discarded by version 2:
    when the stored text parses to an array of objects with a string id, a
    string text, a boolean completed and a due date that is a string or
    absent, the load effect logs nothing and installs one object for each
    element, in order, made from that element. *)
Theorem loadTasks_keeps_expected_shape (s : JSString) (v : JValue) :
  JSON_parse s = Some v ->
  V2.expectedShape v = true ->
  exists loaded,
    V2.loadTasks (Some s) = Normal (mkMounted loaded [])
    /\ v = JArray (map V2.spreadOf loaded).
Proof.
  intros Hp Hs. destruct v as [| | | |l|]; try discriminate.
  cbn [V2.expectedShape] in Hs.
  destruct (mapC_withDate_shaped l Hs) as (loaded & E & Em).
  exists loaded. split; [|now rewrite Em].
  rewrite loadTasks_of_body by (intros ->; discriminate).
  unfold V2.loadBody. now rewrite Hp, E.
Qed.

Lemma loadTasks_keeps_expected_shape_witness :
  exists loaded,
    V2.loadTasks
      (Some (V2.saveTasks [V2.mkTask (u "1") (u "a") false (Some 86400000)]))
    = Normal (mkMounted loaded [])
    /\ taskJSON (V2.mkTask (u "1") (u "a") false (Some 86400000))
       = match loaded with o :: _ => V2.spreadOf o | [] => JNull end.
Proof.
  destruct (loadTasks_keeps_expected_shape
              (V2.saveTasks [V2.mkTask (u "1") (u "a") false (Some 86400000)])
              (JArray [taskJSON (V2.mkTask (u "1") (u "a") false (Some 86400000))]))
    as (loaded & H1 & H2).
  - apply (JSON_parse_stringify [V2.mkTask (u "1") (u "a") false (Some 86400000)]).
  - reflexivity.
  - exists loaded. split; [exact H1|].
    destruct loaded as [|o os]; [discriminate|]. now injection H2.
Defined.

Lemma loadTasks_saveTasks (l : list V2.Task) :
  V2.loadTasks (Some (V2.saveTasks l)) = Normal (mkMounted (map revived l) []).
Proof.
  unfold V2.saveTasks. rewrite loadTasks_of_body by apply JSON_stringify_nonempty.
  unfold V2.loadBody. now rewrite JSON_parse_stringify, mapC_withDate_tasks.
Qed.

(** X18. The stored text tells task lists apart: two task lists with valid
    due dates that are saved as the same text are the same list, so nothing
    of a task (id, text, completion flag, due date) is lost or merged in
    storage. *)
Theorem saveTasks_injective (l l' : list V2.Task) :
  Forall (fun t => forall d, V2.dueDate t = Some d -> validTime d) l ->
  Forall (fun t => forall d, V2.dueDate t = Some d -> validTime d) l' ->
  V2.saveTasks l = V2.saveTasks l' ->
  l = l'.
Proof.
  intros Hl Hl' E.
  assert (R : forall x, Forall (fun t => forall d, V2.dueDate t = Some d -> validTime d) x ->
                        map V2.asTask (map revived x) = map Some x).
  { intros x Hx. rewrite map_map. induction Hx as [|t r Ht Hr IH]; [reflexivity|].
    cbn [map]. now rewrite asTask_revived, IH. }
  pose proof (loadTasks_saveTasks l) as L. rewrite E, loadTasks_saveTasks in L.
  injection L as L.
  pose proof (R l Hl) as Rl. rewrite <- L, (R l' Hl') in Rl.
  clear - Rl. revert l Rl; induction l' as [|t r IH]; intros [|t' r'] H;
    try discriminate; [reflexivity|].
  cbn [map] in H. injection H as Ht Hr. f_equal; [congruence|]. now apply IH.
Qed.

Lemma saveTasks_injective_witness :
  [V2.mkTask (u "1") (u "a") false (Some 86400000)]
  = [V2.mkTask (u "1") (u "a") false (Some 86400000)].
Proof.
  apply (saveTasks_injective
           [V2.mkTask (u "1") (u "a") false (Some 86400000)]
           [V2.mkTask (u "1") (u "a") false (Some 86400000)]).
  - constructor; [|constructor]. intros d E. injection E as <-. unfold validTime. lia.
  - constructor; [|constructor]. intros d E. injection E as <-. unfold validTime. lia.
  - reflexivity.
Defined.

(** ** Version 1 through version 2 *)

Lemma forgetDates_asVersion2 (st : V1.State) : forgetDates (asVersion2 st) = st.
Proof.
  destruct st as [l v]. unfold forgetDates, asVersion2. cbn. f_equal.
  rewrite map_map. induction l as [|t l IH]; [reflexivity|].
  cbn [map]. rewrite IH. now destruct t.
Qed.

Lemma step1_as_step2 (st : V1.State) (a : Action) :
  V1.step st a = forgetDates (V2.step (asVersion2 st) a).
Proof. now rewrite <- step_forgetDates, forgetDates_asVersion2. Qed.

Lemma asVersion2_ids (st : V1.State) :
  map V2.id (V2.tasks (asVersion2 st)) = map V1.id (V1.tasks st).
Proof. cbn. rewrite map_map. now apply map_ext. Qed.

(** X19. The toggle and delete handlers of version 1 behave on its store as
    those of version 2: toggling an id twice gives back the state, toggling
    or deleting an id that no task has changes nothing, after a delete no
    task of that id is left, deleting twice is deleting once, and an Add on
    a non-blank input appends one incomplete task with the trimmed text and
    clears the input. *)
Theorem version1_handlers (i : JSString) (now : Z) (st : V1.State) :
  V1.toggleComplete i (V1.toggleComplete i st) = st
  /\ (~ In i (map V1.id (V1.tasks st)) ->
      V1.toggleComplete i st = st /\ V1.deleteTask i st = st)
  /\ ~ In i (map V1.id (V1.tasks (V1.deleteTask i st)))
  /\ V1.deleteTask i (V1.deleteTask i st) = V1.deleteTask i st
  /\ (trim (V1.inputValue st) <> [] ->
      V1.addTask now st
      = V1.mkState
          (V1.tasks st ++ [V1.mkTask (numberToString now) (trim (V1.inputValue st)) false])
          []).
Proof.
  assert (T : forall x, V1.toggleComplete i x = V1.step x (AToggle i)) by reflexivity.
  assert (D : forall x, V1.deleteTask i x = V1.step x (ADelete i)) by reflexivity.
  split; [|split; [|split; [|split]]].
  - rewrite !T, (step1_as_step2 st), step_forgetDates. cbn [V2.step].
    unfold V2.toggleComplete at 1. cbn [V2.toggleComplete V2.tasks V2.inputValue
                                         V2.selectedDate V2.sortBy].
    rewrite toggleTasks_twice. apply forgetDates_asVersion2.
  - intros H. rewrite <- asVersion2_ids in H. split.
    + rewrite T, step1_as_step2. cbn [V2.step]. unfold V2.toggleComplete.
      rewrite toggleTasks_absent by assumption. apply forgetDates_asVersion2.
    + rewrite D, step1_as_step2. cbn [V2.step]. unfold V2.deleteTask.
      rewrite deleteTasks_absent by assumption. apply forgetDates_asVersion2.
  - rewrite D, step1_as_step2. cbn [V2.step forgetDates V1.tasks].
    rewrite forgetDate_ids. apply deleteTasks_gone.
  - rewrite !D, (step1_as_step2 st), step_forgetDates. cbn [V2.step].
    f_equal. unfold V2.deleteTask.
    cbn [V2.tasks V2.inputValue V2.selectedDate V2.sortBy]. f_equal.
    apply deleteTasks_absent. apply deleteTasks_gone.
  - intros H. unfold V1.addTask.
    destruct (trim (V1.inputValue st)); [contradiction|reflexivity].
Qed.

(** X20. The id of a task is its clock reading and nothing else: two Adds
    give their tasks the same id exactly when they read the same clock
    value, whatever the stores and the inputs. *)
Theorem addTask_ids_follow_clock (now now' : Z) (st st' : V2.State) :
  trim (V2.inputValue st) <> [] ->
  trim (V2.inputValue st') <> [] ->
  (map V2.id (V2.tasks (V2.addTask now st))
   = map V2.id (V2.tasks st) ++ [numberToString now])
  /\ (last (map V2.id (V2.tasks (V2.addTask now st))) []
      = last (map V2.id (V2.tasks (V2.addTask now' st'))) []
      <-> now = now').
Proof.
  intros H H'. rewrite !addTask_nonblank by assumption. cbn [V2.tasks].
  rewrite !map_app. cbn [map V2.id]. split; [reflexivity|].
  rewrite !last_last. split; [apply numberToString_inj|now intros ->].
Qed.

Lemma addTask_ids_follow_clock_witness :
  map V2.id (V2.tasks (V2.addTask 1700000000000
                         (V2.mkState [] (u "a") None V2.SortDeadline)))
  = [] ++ [numberToString 1700000000000].
Proof.
  refine (proj1 (addTask_ids_follow_clock 1700000000000 1700000000001
                   (V2.mkState [] (u "a") None V2.SortDeadline)
                   (V2.mkState [] (u "b") None V2.SortDeadline) _ _));
    discriminate.
Defined.
